(** * sh-unnecessaryprivilegeremover: a shallow embedding of [main.py]

    The program scans a directory tree for setuid/setgid files, samples the
    process table for a while, and runs [chmod a-s] on every inventoried file
    whose path was not seen as a running executable.

    Layout of this development:
    - [Path]: [os.path.join] and the splitting of a path into components;
    - the filesystem as a tree of directory entries, with [os.stat],
      [os.walk] and the effect of [chmod a-s];
    - the four stages of the program ([find_setuid_setgid_files],
      [monitor_processes], [check_privilege_usage], [remove_privileges]) and
      [main], each writing the log lines and system calls it performs to a
      trace;
    - the properties. *)

From Stdlib Require Import ZArith Lia List Ascii String.
From stdpp Require Import base list strings gmap pretty.
From Equations Require Import Equations.
Import ListNotations.
Local Open Scope Z_scope.

(** ** Paths *)

Module Path.

Definition sep : ascii := "/"%char.

Definition is_sep (c : ascii) : bool := Ascii.eqb c sep.

(** [b.startswith('/')] *)
Definition startswith_sep (s : string) : bool :=
  match s with
  | String c _ => is_sep c
  | EmptyString => false
  end.

(** [a.endswith('/')] *)
Fixpoint endswith_sep (s : string) : bool :=
  match s with
  | EmptyString => false
  | String c EmptyString => is_sep c
  | String _ rest => endswith_sep rest
  end.

(** [os.path.join(a, b)] of posixpath, for two arguments. *)
Definition join (a b : string) : string :=
  if startswith_sep b then b
  else match a with
       | EmptyString => b
       | _ => if endswith_sep a then a +:+ b else a +:+ String sep b
       end.

(** The components of a path as the kernel resolves them: maximal runs of
    characters other than the separator; empty components (doubled or
    trailing separators) are dropped. [cur] is the component being read. *)
Fixpoint split_from (cur : string) (s : string) : list string :=
  match s with
  | EmptyString => match cur with EmptyString => [] | _ => [cur] end
  | String c rest =>
      if is_sep c
      then match cur with
           | EmptyString => split_from EmptyString rest
           | _ => cur :: split_from EmptyString rest
           end
      else split_from (cur +:+ String c EmptyString) rest
  end.

Definition components (p : string) : list string := split_from EmptyString p.

Fixpoint has_sep (s : string) : bool :=
  match s with
  | EmptyString => false
  | String c rest => is_sep c || has_sep rest
  end.

(** The names a directory can hold: not empty, no separator, and neither
    of the two dot entries (which [scandir] never returns). *)
Definition valid_name (s : string) : Prop :=
  s ≠ EmptyString ∧ has_sep s = false ∧ s ≠ "." ∧ s ≠ "..".

End Path.

(** ** Results of calls that may raise *)

(** [Raised e] stands for an exception whose text ([str(e)]) is [e]. *)
Inductive outcome (A : Type) : Type :=
| Done (a : A)
| Raised (e : string).
Arguments Done {A} a.
Arguments Raised {A} e.

(** ** The filesystem *)

(** Bits of [st_mode]. *)
Definition S_ISUID : Z := 2048.   (* 0o4000 *)
Definition S_ISGID : Z := 1024.   (* 0o2000 *)

Record inode : Type := { st_mode : Z; chmod_allowed : bool }.

(** A directory entry as [os.walk] and [os.stat] see it through symbolic
    links. [File] is any entry for which [DirEntry.is_dir()] is false: its
    [stat] either gives an inode or raises [OSError] (broken link, no search
    permission). [Dir] is an entry for which [is_dir()] is true; [islink]
    says that the entry itself is a symbolic link, [listable] that
    [os.scandir] on it succeeds. The tree is the one the calls of a run
    see: whatever makes [stat] or [scandir] fail on an entry (permissions,
    a dangling link, a path too long for the kernel) is in the entry. *)
#[warnings="-register-all"]
Inductive node : Type :=
| File (st : outcome inode)
| Dir (i : inode) (islink : bool) (listable : bool)
      (entries : list (string * node)).

Record filesystem : Type := { fs_root : node; fs_cwd : list string }.

Definition is_dir (n : node) : bool :=
  match n with Dir _ _ _ _ => true | File _ => false end.

Fixpoint assoc (name : string) (ents : list (string * node)) : option node :=
  match ents with
  | [] => None
  | (k, n) :: rest => if String.eqb k name then Some n else assoc name rest
  end.

Fixpoint alter_entry (f : node → node) (name : string)
    (ents : list (string * node)) : list (string * node) :=
  match ents with
  | [] => []
  | (k, n) :: rest =>
      if String.eqb k name then (k, f n) :: rest
      else (k, n) :: alter_entry f name rest
  end.

(** Resolution of a list of components from a node. Paths through [..] are
    outside this model: no directory holds such an entry, so they do not
    resolve. *)
Fixpoint resolve (n : node) (comps : list string) : option node :=
  match comps with
  | [] => Some n
  | c :: rest =>
      match n with
      | Dir _ _ _ ents =>
          if String.eqb c "." then resolve n rest
          else match assoc c ents with
               | Some child => resolve child rest
               | None => None
               end
      | File _ => None
      end
  end.

Fixpoint alter_at (f : node → node) (n : node) (comps : list string) : node :=
  match comps with
  | [] => f n
  | c :: rest =>
      match n with
      | Dir i l r ents =>
          if String.eqb c "." then alter_at f n rest
          else Dir i l r (alter_entry (fun child => alter_at f child rest) c ents)
      | File _ => n
      end
  end.

(** The components to follow from the root: a relative path starts at the
    working directory. *)
Definition absolute (fs : filesystem) (p : string) : list string :=
  (if Path.startswith_sep p then [] else fs_cwd fs) ++ Path.components p.

(** The empty path names nothing (ENOENT). *)
Definition lookup_path (fs : filesystem) (p : string) : option node :=
  match p with
  | EmptyString => None
  | _ => resolve (fs_root fs) (absolute fs p)
  end.

(** [repr] of a [str], as Python prints a file name in the text of an
    [OSError] and the arguments in that of a [CalledProcessError]: between
    single quotes, or between double quotes when the string holds a single
    quote and no double quote; the quote in use and the backslash are
    escaped by a backslash, tab, newline and carriage return are written
    [\t], [\n] and [\r], and the other control characters [\xhh]. A
    character above 127 is kept as it is, which is what Python does for
    printable text; on a string of ASCII characters the text is Python's in
    full. *)
Definition single_quote : ascii := "039"%char.
Definition double_quote : ascii := "034"%char.
Definition backslash : ascii := "092"%char.

Definition hex_digit (n : N) : ascii :=
  match n with
  | 0%N => "0" | 1%N => "1" | 2%N => "2" | 3%N => "3" | 4%N => "4"
  | 5%N => "5" | 6%N => "6" | 7%N => "7" | 8%N => "8" | 9%N => "9"
  | 10%N => "a" | 11%N => "b" | 12%N => "c" | 13%N => "d" | 14%N => "e"
  | _ => "f"
  end%char.

Definition escape (quote c : ascii) : string :=
  if Ascii.eqb c quote || Ascii.eqb c backslash
  then String backslash (String c EmptyString)
  else if Ascii.eqb c "009" then String backslash "t"
  else if Ascii.eqb c "010" then String backslash "n"
  else if Ascii.eqb c "013" then String backslash "r"
  else
    let n := N_of_ascii c in
    if (n <? 32)%N || (n =? 127)%N
    then String backslash
           (String "x" (String (hex_digit (n / 16))
                          (String (hex_digit (n mod 16)) EmptyString)))
    else String c EmptyString.

Fixpoint escape_all (quote : ascii) (s : string) : string :=
  match s with
  | EmptyString => EmptyString
  | String c rest => escape quote c +:+ escape_all quote rest
  end.

Fixpoint contains (c : ascii) (s : string) : bool :=
  match s with
  | EmptyString => false
  | String c' rest => Ascii.eqb c' c || contains c rest
  end.

Definition py_repr (s : string) : string :=
  let quote :=
    if contains single_quote s && negb (contains double_quote s)
    then double_quote else single_quote in
  String quote (escape_all quote s +:+ String quote EmptyString).

(** [str.isascii()] *)
Fixpoint isascii (s : string) : bool :=
  match s with
  | EmptyString => true
  | String c rest => (N_of_ascii c <? 128)%N && isascii rest
  end.

(** The text of the [FileNotFoundError] for [p]. *)
Definition enoent (p : string) : string :=
  "[Errno 2] No such file or directory: " +:+ py_repr p.

(** [os.stat(path).st_mode], following symbolic links. *)
Definition os_stat (fs : filesystem) (p : string) : outcome Z :=
  match lookup_path fs p with
  | Some (File (Done i)) => Done (st_mode i)
  | Some (File (Raised e)) => Raised e
  | Some (Dir i _ _ _) => Done (st_mode i)
  | None => Raised (enoent p)
  end.

Definition dirnames (ents : list (string * node)) : list string :=
  map fst (filter (fun e => is_dir (snd e)) ents).

Definition filenames (ents : list (string * node)) : list string :=
  map fst (filter (fun e => negb (is_dir (snd e))) ents).

(** [os.walk(top)] with its defaults (top-down, [onerror=None],
    [followlinks=False]) on the directory [n] found at [top]: a triple
    [(dirpath, dirnames, filenames)] per directory that can be listed, the
    directory first and then its sub-directories in listing order. An error
    of [scandir] is dropped without a call-back, and a sub-directory that is
    a symbolic link is listed in [dirnames] but not entered. This is the
    walk that is not cut short by the recursion limit of the interpreter;
    [walk_on] below is the walk with that limit. *)
Definition enters (child : node) : bool :=
  match child with Dir _ false _ _ => true | _ => false end.

Fixpoint walk (top : string) (n : node)
    : list (string * list string * list string) :=
  match n with
  | Dir _ _ true ents =>
      (top, dirnames ents, filenames ents) ::
      flat_map (λ '(name, child),
                  if enters child then walk (Path.join top name) child
                  else []) ents
  | _ => []
  end.

Definition os_walk (fs : filesystem) (top : string)
    : list (string * list string * list string) :=
  match lookup_path fs top with
  | Some n => walk top n
  | None => []
  end.

(** [m & ~0o6000]: what [chmod a-s] leaves of a mode. *)
Definition clear_s (m : Z) : Z := Z.land m (Z.lnot (Z.lor S_ISUID S_ISGID)).

Definition clear_inode (i : inode) : inode :=
  {| st_mode := clear_s (st_mode i); chmod_allowed := chmod_allowed i |}.

Definition clear_node (n : node) : node :=
  match n with
  | File (Done i) => File (Done (clear_inode i))
  | File (Raised e) => File (Raised e)
  | Dir i l r ents => Dir (clear_inode i) l r ents
  end.

Definition node_inode (n : node) : option inode :=
  match n with
  | File (Done i) => Some i
  | File (Raised _) => None
  | Dir i _ _ _ => Some i
  end.

(** The [chmod a-s path] utility: [None] is a non-zero exit status (the
    path does not resolve, or the caller may not change the mode), in which
    case nothing changed. *)
Definition chmod_a_s (fs : filesystem) (p : string) : option filesystem :=
  match lookup_path fs p with
  | Some n =>
      match node_inode n with
      | Some i =>
          if chmod_allowed i
          then Some {| fs_root := alter_at clear_node (fs_root fs) (absolute fs p);
                       fs_cwd := fs_cwd fs |}
          else None
      | None => None
      end
  | None => None
  end.

(** ** The trace of a run *)

Inductive level : Type := INFO | WARNING | ERROR.

(** What a run does that can be seen from outside: the lines it logs and
    the system calls it makes. *)
Inductive event : Type :=
| Log (lvl : level) (msg : string)
| SysOpen (path : string)
| SysWalk (top : string)
| SysStat (path : string)
| SysProcessIter
| SysSleep
| SysChmod (path : string).

(** ** Privilege Scanner: [find_setuid_setgid_files] *)

Definition record : Type := (string * Z)%type.

Definition privileged (m : Z) : bool :=
  negb (Z.land m (Z.lor S_ISUID S_ISGID) =? 0).

(** The body of the inner loop, for one [file] of the directory [root]. *)
Definition scan_file (fs : filesystem) (root : string)
    (acc : list record * list event) (file : string)
    : list record * list event :=
  let filepath := Path.join root file in
  match os_stat fs filepath with
  | Done mode =>
      if privileged mode
      then (acc.1 ++ [(filepath, mode)], acc.2 ++ [SysStat filepath])
      else (acc.1, acc.2 ++ [SysStat filepath])
  | Raised e =>
      (acc.1, acc.2 ++ [SysStat filepath;
                        Log WARNING ("Could not stat " +:+ filepath +:+ ": " +:+ e)])
  end.

(** The body of the outer loop, for one triple of [os.walk]. *)
Definition scan_dir (fs : filesystem) (acc : list record * list event)
    (triple : string * list string * list string)
    : list record * list event :=
  let '(root, _, files) := triple in
  fold_left (scan_file fs root) files acc.

(** [os.walk] raises no [OSError] of its own (it drops the errors of
    [scandir]), so the outer handler of the source has nothing to catch.
    The scan of a walk that completes; [find_setuid_setgid_files_on] below
    is the scan on an interpreter whose walk can run out of recursion
    depth. *)
Definition find_setuid_setgid_files (fs : filesystem) (root_dir : string)
    : list record * list event :=
  fold_left (scan_dir fs) (os_walk fs root_dir) ([], [SysWalk root_dir]).

Definition default_root_dir : string := "/".

(** ** Activity Monitor: [monitor_processes] *)

(** One process of [psutil.process_iter(['pid', 'name', 'exe'])]:
    [ProcInfo exe] carries the value of [proc.info['exe']] ([None] when
    psutil could not read it); [ProcRaised e] is a process for which reading
    it raises [NoSuchProcess], [AccessDenied] or [ZombieProcess]. *)
Inductive proc : Type :=
| ProcInfo (exe : option string)
| ProcRaised (e : string).

(** One pass over the process table, as the environment serves it: the
    processes [process_iter] yields, whether it then raises, the time the
    pass takes, and by how much [time.sleep(0.1)] oversleeps. Times are in
    microseconds. The two durations cannot be negative: the readings of
    [time.time()] are those of a clock that nobody sets back while the
    monitor runs, every property of the timing of the monitor is under
    that condition. *)
Record sample : Type := {
  procs : list proc;
  failure : option string;
  sample_time : N;
  oversleep : N
}.

Definition second : Z := 1000000.
Definition poll_interval : Z := 100000.   (* time.sleep(0.1) *)

(** The body of the inner loop. [if exe:] holds for a non-empty string. *)
Definition observe_proc (acc : gset string * list event) (p : proc)
    : gset string * list event :=
  match p with
  | ProcInfo (Some exe) =>
      match exe with
      | EmptyString => acc
      | _ => ({[exe]} ∪ acc.1, acc.2)
      end
  | ProcInfo None => acc
  | ProcRaised e =>
      (acc.1, acc.2 ++ [Log WARNING ("Error getting process info: " +:+ e)])
  end.

Definition observe_sample (s : sample) (acc : gset string * list event)
    : gset string * list event :=
  fold_left observe_proc (procs s) (acc.1, acc.2 ++ [SysProcessIter]).

(** The [while] loop. [now] is the reading of [time.time()] at the test of
    the loop, [i] counts the passes. The result is the set, the time at
    which the loop was left and the trace. An exception of [process_iter]
    leaves the loop through the outer handler. *)
Equations monitor_loop (ticks : nat → sample) (start_time duration : Z)
    (i : nat) (now : Z) (acc : gset string * list event)
    : gset string * Z * list event
    by wf (Z.to_nat (start_time + duration * second - now)) lt :=
  monitor_loop ticks start_time duration i now acc
    with Z_lt_dec (now - start_time) (duration * second) := {
    | right _ => (acc.1, now, acc.2)
    | left _ with failure (ticks i) := {
      | Some e =>
          let acc' := observe_sample (ticks i) acc in
          (acc'.1, now + Z.of_N (sample_time (ticks i)),
           acc'.2 ++ [Log ERROR ("Error during process monitoring: " +:+ e)])
      | None =>
          monitor_loop ticks start_time duration (S i)
            (now + Z.of_N (sample_time (ticks i)) + poll_interval
                 + Z.of_N (oversleep (ticks i)))
            (let acc' := observe_sample (ticks i) acc in
             (acc'.1, acc'.2 ++ [SysSleep])) } }.
Next Obligation. unfold poll_interval. lia. Qed.

Definition monitor_processes (ticks : nat → sample) (start_time duration : Z)
    : gset string * Z * list event :=
  let '(created, finish, tr) :=
    monitor_loop ticks start_time duration 0 start_time
      (∅, [Log INFO ("Monitoring processes for " +:+ pretty duration
                      +:+ " seconds...")]) in
  (created, finish, tr ++ [Log INFO "Process monitoring completed."]).

(** ** Correlator: [check_privilege_usage] *)

Definition check_privilege_usage (filepath : string)
    (monitored_processes : gset string) : bool :=
  bool_decide (filepath ∈ monitored_processes).

(** ** Revoker: [remove_privileges] *)

Record world : Type := { fs : filesystem; trace : list event }.

Definition emit (evs : list event) (w : world) : world :=
  {| fs := fs w; trace := trace w ++ evs |}.

(** [str(e)] of the [CalledProcessError] of [subprocess.run(..., check=True)]
    when [chmod] exits with status 1: the command is printed as the list it
    is, each argument by its [repr]. *)
Definition called_process_error (filepath : string) : string :=
  "Command '['chmod', 'a-s', " +:+ py_repr filepath
    +:+ "]' returned non-zero exit status 1.".

(** [spawn_error filepath = Some e]: [subprocess.run] itself raises (an
    [OSError] with text [e]: no [chmod] on the search path, no process could
    be created) and no [chmod] runs. *)
Definition remove_privileges (spawn_error : string → option string)
    (filepath : string) (dry_run : bool) (w : world) : world :=
  if negb dry_run then
    match spawn_error filepath with
    | Some e => emit [Log ERROR ("An unexpected error occurred: " +:+ e)] w
    | None =>
        match chmod_a_s (fs w) filepath with
        | Some fs' =>
            {| fs := fs';
               trace := trace w ++
                 [SysChmod filepath;
                  Log INFO ("Removed setuid/setgid bits from: " +:+ filepath)] |}
        | None =>
            emit [SysChmod filepath;
                  Log ERROR ("Failed to remove privileges from " +:+ filepath
                             +:+ ": " +:+ called_process_error filepath)] w
        end
    end
  else
    emit [Log INFO ("[Dry Run] Would remove setuid/setgid bits from: "
                    +:+ filepath)] w.

(** ** Configuration: [load_config] *)

#[warnings="-register-all"]
Inductive yaml : Type :=
| YNull
| YBool (b : bool)
| YInt (z : Z)
| YStr (s : string)
| YSeq (items : list yaml)
| YMap (items : list (string * yaml)).

(** What opening the file and [yaml.safe_load] do. *)
Inductive file_read : Type :=
| NoSuchFile
| BadYaml (e : string)
| OtherFailure (e : string)
| Loaded (v : yaml).

(** [Raised msg] is a [PrivilegeRemoverError]. The error for a document
    that is not a mapping is raised inside the [try], so the last handler
    catches it and wraps its text once more. *)
Definition load_config (read : string → file_read) (config_file : string)
    : outcome (list (string * yaml)) :=
  match read config_file with
  | Loaded (YMap config) => Done config
  | Loaded _ =>
      Raised ("Failed to load configuration: "
              +:+ "Configuration file must contain a dictionary.")
  | NoSuchFile => Raised ("Configuration file not found: " +:+ config_file)
  | BadYaml e => Raised ("Error parsing YAML file: " +:+ e)
  | OtherFailure e => Raised ("Failed to load configuration: " +:+ e)
  end.

(** ** The pipeline: [main] *)

(** The namespace of [setup_argparse().parse_args()]. *)
Record Args : Type := { config : string; dry_run : bool; monitor_time : Z }.

Definition default_args : Args :=
  {| config := "config.yaml"; dry_run := false; monitor_time := 60 |}.

(** What the run does not control: the configuration files, the clock and
    the process table during monitoring, what other processes do to the
    filesystem while the monitor runs, and whether [chmod] can be started. *)
Record environment : Type := {
  read_config : string → file_read;
  start_time : Z;
  ticks : nat → sample;
  drift : filesystem → filesystem;
  spawn_error : string → option string
}.

(** The body of the last loop of [main]. *)
Definition process_file (env : environment) (dry : bool)
    (monitored_processes : gset string) (w : world) (r : record) : world :=
  let '(filepath, mode) := r in
  if negb (check_privilege_usage filepath monitored_processes)
  then remove_privileges (spawn_error env) filepath dry w
  else emit [Log INFO ("Keeping privileges for: " +:+ filepath
                       +:+ " (used by monitored processes).")] w.

(** The stages after validation, for a run whose walk completes. The
    scanner, the monitor and the revoker catch what their calls raise; the
    one exception that reaches the handler around the stages is the
    [RecursionError] of a walk that runs out of recursion depth:
    [pipeline_on] below has that case. *)
Definition pipeline (args : Args) (env : environment) (w : world) : world :=
  let '(setuid_setgid_files, scan_trace) :=
    find_setuid_setgid_files (fs w) default_root_dir in
  let w1 :=
    emit (scan_trace ++
          [Log INFO ("Found " +:+ pretty (length setuid_setgid_files)
                     +:+ " files with setuid/setgid bits set.")]) w in
  let '(monitored_processes, _, monitor_trace) :=
    monitor_processes (ticks env) (start_time env) (monitor_time args) in
  let w2 :=
    emit (monitor_trace ++
          [Log INFO ("Monitored " +:+ pretty (size monitored_processes)
                     +:+ " unique processes.")])
         {| fs := drift env (fs w1); trace := trace w1 |} in
  fold_left (process_file env (dry_run args) monitored_processes)
            setuid_setgid_files w2.

(** [main], once [parse_args] has returned the namespace [args]: the exit
    status of the process and the final world. [run] below starts at the
    command line. *)
Definition main (args : Args) (env : environment) (w : world) : Z * world :=
  let w0 := emit [SysOpen (config args)] w in
  match load_config (read_config env) (config args) with
  | Raised e => (1, emit [Log ERROR e] w0)
  | Done _ =>
      if monitor_time args <=? 0
      then (1, emit [Log ERROR "Monitor time must be a positive integer."] w0)
      else (0, pipeline args env w0)
  end.

(** ** Well-formed trees and the files a walk can reach *)

(** Every directory holds valid names, each once. *)
Fixpoint wf_node (n : node) : Prop :=
  match n with
  | File _ => True
  | Dir _ _ _ ents =>
      NoDup (map fst ents) ∧
      (fix all (es : list (string * node)) : Prop :=
         match es with
         | [] => True
         | (name, child) :: es' =>
             Path.valid_name name ∧ wf_node child ∧ all es'
         end) ents
  end.

(** The directories a scan from [n], found at [top], enters: [top] itself
    when it can be listed, and every sub-directory of an entered directory
    that is not a symbolic link and can be listed. *)
Inductive entered (top : string) (n : node) : string → node → Prop :=
| entered_top i l ents :
    n = Dir i l true ents → entered top n top n
| entered_sub p i l ents name i' ents' :
    entered top n p (Dir i l true ents) →
    (name, Dir i' false true ents') ∈ ents →
    entered top n (Path.join p name) (Dir i' false true ents').

(** The files reachable from [n]: the non-directory entries of the
    directories a scan enters, under the path [os.path.join] gives them. *)
Inductive reachable_file (top : string) (n : node)
    : string → outcome inode → Prop :=
| reachable_entry p i l ents name st :
    entered top n p (Dir i l true ents) →
    (name, File st) ∈ ents →
    reachable_file top n (Path.join p name) st.

(** The same files as a list, a directory's own files before those of its
    sub-directories, both in listing order. *)
Definition files_here (top : string) (ents : list (string * node))
    : list (string * outcome inode) :=
  flat_map (λ '(name, child),
              match child with
              | File st => [(Path.join top name, st)]
              | Dir _ _ _ _ => []
              end) ents.

Fixpoint tree_files (top : string) (n : node)
    : list (string * outcome inode) :=
  match n with
  | Dir _ _ true ents =>
      files_here top ents ++
      flat_map (λ '(name, child),
                  match child with
                  | Dir _ false true _ => tree_files (Path.join top name) child
                  | _ => []
                  end) ents
  | _ => []
  end.

(** The record expected for a file: its path and mode when it has a mode
    with the setuid or the setgid bit. *)
Definition expected_record (f : string * outcome inode) : option record :=
  match f.2 with
  | Done i => if privileged (st_mode i) then Some (f.1, st_mode i) else None
  | Raised _ => None
  end.

Definition expected_inventory (fs : filesystem) (root_dir : string)
    : list record :=
  match lookup_path fs root_dir with
  | Some n => omap expected_record (tree_files root_dir n)
  | None => []
  end.

(** The records one file and one triple of the walk contribute. *)
Definition file_records (fs : filesystem) (root file : string) : list record :=
  match os_stat fs (Path.join root file) with
  | Done mode =>
      if privileged mode then [(Path.join root file, mode)] else []
  | Raised _ => []
  end.

Definition dir_records (fs : filesystem)
    (triple : string * list string * list string) : list record :=
  flat_map (file_records fs triple.1.1) triple.2.

(** The events a scan from [root_dir] may write: the call of [os.walk] on
    [root_dir], calls of [os.stat], and a warning for a path whose [stat]
    raised. *)
Definition scan_event (fs : filesystem) (root_dir : string) (e : event) : Prop :=
  match e with
  | SysWalk top => top = root_dir
  | SysStat _ => True
  | Log lvl msg =>
      lvl = WARNING ∧
      ∃ filepath err, os_stat fs filepath = Raised err ∧
        msg = "Could not stat " +:+ filepath +:+ ": " +:+ err
  | _ => False
  end.

(** ** Sample trees *)

Definition regular (mode : Z) : node :=
  File (Done {| st_mode := mode; chmod_allowed := true |}).

Definition directory (mode : Z) (listable : bool)
    (ents : list (string * node)) : node :=
  Dir {| st_mode := mode; chmod_allowed := true |} false listable ents.

(** [/bin/a] and [/bin/b] are setuid (0o104755), [/bin/c] is not
    (0o100755); [/secret] (0o40700, owned by someone else) cannot be listed
    and hides a setuid file; [/shared] is a setgid directory (0o42775) with
    a setgid file (0o102755). *)
Definition demo_tree : node :=
  directory 16877 true
    [("bin", directory 16877 true
               [("a", regular 35309); ("b", regular 35309);
                ("c", regular 33261)]);
     ("secret", directory 16832 false [("x", regular 35309)]);
     ("shared", directory 17917 true [("y", regular 34285)])].

Definition demo_fs : filesystem := {| fs_root := demo_tree; fs_cwd := [] |}.

(** The claim that a directory which cannot be entered leaves a warning in
    the log of the scan. *)
Definition unreadable_dirs_warned : Prop :=
  ∀ fs root_dir n q i l ents name i' l' ents',
    wf_node (fs_root fs) →
    lookup_path fs root_dir = Some n →
    entered root_dir n q (Dir i l true ents) →
    (name, Dir i' l' false ents') ∈ ents →
    ∃ msg, Log WARNING msg ∈ (find_setuid_setgid_files fs root_dir).2.

(** ** Names for the parts of a run *)

(** The two branches of the last loop of [main]: the file is left alone,
    or handed to [remove_privileges]. *)
Inductive Decision : Type := KEEP | REVOKE.

Definition decision (filepath : string) (monitored_processes : gset string)
    : Decision :=
  if negb (check_privilege_usage filepath monitored_processes)
  then REVOKE else KEEP.

Definition keep_message (filepath : string) : string :=
  "Keeping privileges for: " +:+ filepath +:+ " (used by monitored processes).".

Definition dry_run_message (filepath : string) : string :=
  "[Dry Run] Would remove setuid/setgid bits from: " +:+ filepath.

Definition removed_message (filepath : string) : string :=
  "Removed setuid/setgid bits from: " +:+ filepath.

Definition failed_message (filepath : string) : string :=
  "Failed to remove privileges from " +:+ filepath +:+ ": "
    +:+ called_process_error filepath.

(** A process that starts on the filesystem [fs0] with nothing traced. *)
Definition fresh (fs0 : filesystem) : world := {| fs := fs0; trace := [] |}.

(** The inventory and the observed set of a run of [main]. *)
Definition scanned (fs0 : filesystem) : list record :=
  (find_setuid_setgid_files fs0 default_root_dir).1.

Definition observed (args : Args) (env : environment) : gset string :=
  (monitor_processes (ticks env) (start_time env) (monitor_time args)).1.1.

(** The world in which the last loop of [main] starts. *)
Definition before_revocation (args : Args) (env : environment) (w : world)
    : world :=
  {| fs := drift env (fs w);
     trace :=
       trace w ++
       ((find_setuid_setgid_files (fs w) default_root_dir).2 ++
        [Log INFO ("Found " +:+ pretty (length (scanned (fs w)))
                   +:+ " files with setuid/setgid bits set.")]) ++
       ((monitor_processes (ticks env) (start_time env) (monitor_time args)).2 ++
        [Log INFO ("Monitored " +:+ pretty (size (observed args env))
                   +:+ " unique processes.")]) |}.

(** The roots [os.walk] was called on, and the paths [chmod] ran on. *)
Definition walked (tr : list event) : list string :=
  omap (λ e, match e with SysWalk top => Some top | _ => None end) tr.

Definition chmodded (tr : list event) : list string :=
  omap (λ e, match e with SysChmod p => Some p | _ => None end) tr.

(** The events of the monitor. *)
Definition monitor_event (e : event) : Prop :=
  match e with
  | Log _ _ | SysProcessIter | SysSleep => True
  | _ => False
  end.

(** ** Names for the timing of the monitor *)

Definition is_process_iter (e : event) : bool :=
  match e with SysProcessIter => true | _ => false end.

(** The number of passes over the process table a trace records. *)
Definition count_passes (tr : list event) : nat :=
  length (List.filter is_process_iter tr).

(** No pass over the process table raises. *)
Definition never_fails (ticks : nat → sample) : Prop :=
  ∀ i, failure (ticks i) = None.

(** The time at which [monitor_processes] returns. *)
Definition finish_time (ticks : nat → sample) (start_time duration : Z) : Z :=
  (monitor_processes ticks start_time duration).1.2.

(** The claim that monitoring for [duration] seconds takes between
    [duration] and [duration] plus one poll interval. *)
Definition monitor_within_poll_interval : Prop :=
  ∀ ticks start_time duration,
    0 < duration →
    duration * second ≤ finish_time ticks start_time duration - start_time
      ≤ duration * second + poll_interval.

(** A process table whose every pass takes two seconds. *)
Definition slow_ticks : nat → sample :=
  λ _, {| procs := [ProcInfo (Some "/bin/a")]; failure := None;
          sample_time := 2000000; oversleep := 0 |}.

(** A process table read in no time, by a sleep that wakes up on time. *)
Definition instant_ticks : nat → sample :=
  λ _, {| procs := [ProcInfo (Some "/bin/a")]; failure := None;
          sample_time := 0; oversleep := 0 |}.

(** ** Names for the claims on [main] *)

(** Events that are neither a call of [os.walk] nor a run of [chmod]. *)
Definition quiet (e : event) : Prop :=
  match e with
  | SysWalk _ | SysChmod _ => False
  | _ => True
  end.

Fixpoint yaml_get (key : string) (items : list (string * yaml)) : option yaml :=
  match items with
  | [] => None
  | (k, v) :: rest => if String.eqb k key then Some v else yaml_get key rest
  end.

(** The root path a configuration names. The source reads no key of the
    configuration; [root_path] is the key under which the claim of a
    configured root is examined. *)
Definition configured_root (cfg : list (string * yaml)) : option string :=
  match yaml_get "root_path" cfg with
  | Some (YStr root) => Some root
  | _ => None
  end.

(** The claim that a run scans from the root path of its configuration. *)
Definition scan_root_configured : Prop :=
  ∀ args env fs0 cfg root,
    load_config (read_config env) (config args) = Done cfg →
    configured_root cfg = Some root →
    (main args env (fresh fs0)).1 = 0 →
    SysWalk root ∈ trace (main args env (fresh fs0)).2.

(** The same environment with other configuration files. *)
Definition with_config (read : string → file_read) (env : environment)
    : environment :=
  {| read_config := read; start_time := start_time env; ticks := ticks env;
     drift := drift env; spawn_error := spawn_error env |}.

(** An environment in which nothing moves: the configuration asks for
    [/opt], [/bin/a] is running, the clock costs nothing, no other process
    touches the files, and [chmod] can be started. *)
Definition demo_env : environment :=
  {| read_config := λ _, Loaded (YMap [("root_path", YStr "/opt")]);
     start_time := 0;
     ticks := instant_ticks;
     drift := λ fs, fs;
     spawn_error := λ _, None |}.

Definition demo_args (dry : bool) : Args :=
  {| config := "config.yaml"; dry_run := dry; monitor_time := 1 |}.

(** An environment in which [chmod] cannot be started. *)
Definition no_chmod_env : environment :=
  {| read_config := read_config demo_env;
     start_time := 0;
     ticks := instant_ticks;
     drift := λ fs, fs;
     spawn_error := λ _, Some "[Errno 2] No such file or directory: 'chmod'" |}.

(** The lines a trace logs at level [ERROR]. *)
Definition errors (tr : list event) : list string :=
  omap (λ e, match e with Log ERROR msg => Some msg | _ => None end) tr.

(** [p in msg] *)
Definition mentions (p msg : string) : bool :=
  match String.index 0 p msg with Some _ => true | None => false end.

(** The sample tree after [chmod a-s /bin/b]. *)
Definition demo_tree_revoked : node :=
  directory 16877 true
    [("bin", directory 16877 true
               [("a", regular 35309); ("b", regular 33261);
                ("c", regular 33261)]);
     ("secret", directory 16832 false [("x", regular 35309)]);
     ("shared", directory 17917 true [("y", regular 34285)])].

Definition demo_fs_revoked : filesystem :=
  {| fs_root := demo_tree_revoked; fs_cwd := [] |}.

Definition unexpected_message (e : string) : string :=
  "An unexpected error occurred: " +:+ e.

(** ** Names for further properties of a run *)

(** The events of the last loop of [main]. *)
Definition revoke_event (e : event) : Prop :=
  match e with
  | Log _ _ | SysChmod _ => True
  | _ => False
  end.

(** The path [chmod] runs on for a record, if it runs: not for a file seen
    running, not under dry-run, not when [chmod] cannot be started. *)
Definition chmod_target (env : environment) (dry : bool)
    (monitored : gset string) (r : record) : option string :=
  if check_privilege_usage r.1 monitored then None
  else if dry then None
  else match spawn_error env r.1 with
       | Some _ => None
       | None => Some r.1
       end.

Definition found_message (n : nat) : string :=
  "Found " +:+ pretty n +:+ " files with setuid/setgid bits set.".

Definition monitored_message (n : nat) : string :=
  "Monitored " +:+ pretty n +:+ " unique processes.".

(** ** Names for the passes of the monitor *)

(** The reading of the clock at the test that precedes pass [i], when the
    passes before it ran. *)
Fixpoint pass_start (ticks : nat → sample) (start_time : Z) (i : nat) : Z :=
  match i with
  | O => start_time
  | S j =>
      pass_start ticks start_time j + Z.of_N (sample_time (ticks j))
        + poll_interval + Z.of_N (oversleep (ticks j))
  end.

(** Pass [i] is run: the duration has not elapsed at its test and no
    earlier pass raised. *)
Definition pass_runs (ticks : nat → sample) (start_time duration : Z)
    (i : nat) : Prop :=
  pass_start ticks start_time i - start_time < duration * second ∧
  ∀ j, (j < i)%nat → failure (ticks j) = None.

(** Pass [i] shows a process whose executable is [exe]. *)
Definition shows (ticks : nat → sample) (i : nat) (exe : string) : Prop :=
  ProcInfo (Some exe) ∈ procs (ticks i).

(** ** Names for the trace of a scan *)

(** What [os.stat] gives for a file entry. *)
Definition stat_of (st : outcome inode) : outcome Z :=
  match st with
  | Done i => Done (st_mode i)
  | Raised e => Raised e
  end.

Definition stat_warning (filepath e : string) : string :=
  "Could not stat " +:+ filepath +:+ ": " +:+ e.

(** The events the scanner writes for one file: the call of [os.stat], and
    a warning when it raises. *)
Definition stat_events (filepath : string) (r : outcome Z) : list event :=
  match r with
  | Done _ => [SysStat filepath]
  | Raised e => [SysStat filepath; Log WARNING (stat_warning filepath e)]
  end.

(** What a function of the path and of the result of [os.stat] gives along
    the triples of a walk, and along a list of files. *)
Definition walk_map {B : Type} (fs : filesystem)
    (h : string → outcome Z → list B)
    (triples : list (string * list string * list string)) : list B :=
  flat_map (λ t, flat_map (λ file, h (Path.join t.1.1 file)
                                     (os_stat fs (Path.join t.1.1 file)))
                          t.2) triples.

Definition tree_map {B : Type} (h : string → outcome Z → list B)
    (files : list (string * outcome inode)) : list B :=
  flat_map (λ f, h f.1 (stat_of f.2)) files.

(** A tree with a file whose [stat] raises. *)
Definition broken_tree : node :=
  directory 16877 true
    [("bin", directory 16877 true
               [("a", regular 35309);
                ("dangling", File (Raised "[Errno 2] No such file or directory: '/bin/dangling'"))])].

Definition broken_fs : filesystem := {| fs_root := broken_tree; fs_cwd := [] |}.

(** ** Names for the paths of a walk *)

(** The path [os.walk] and [os.path.join] build for the entry reached from
    [top] through the names [names]. *)
Fixpoint joins (top : string) (names : list string) : string :=
  match names with
  | [] => top
  | name :: rest => joins (Path.join top name) rest
  end.

Definition names_here (ents : list (string * node))
    : list (list string * outcome inode) :=
  flat_map (λ '(name, child),
              match child with
              | File st => [([name], st)]
              | Dir _ _ _ _ => []
              end) ents.

(** The reachable files of a tree by the names that lead to them, in the
    order of [tree_files]. *)
Fixpoint tree_names (n : node) : list (list string * outcome inode) :=
  match n with
  | Dir _ _ true ents =>
      names_here ents ++
      flat_map (λ '(name, child),
                  match child with
                  | Dir _ false true _ =>
                      map (λ x, (name :: x.1, x.2)) (tree_names child)
                  | _ => []
                  end) ents
  | _ => []
  end.

(** ** Names for the effect of a run on the files *)

(** What [os.stat] gives for a node. *)
Definition node_stat (n : node) : outcome Z :=
  match n with
  | File (Done i) => Done (st_mode i)
  | File (Raised e) => Raised e
  | Dir i _ _ _ => Done (st_mode i)
  end.

Definition node_allowed (n : node) : bool :=
  match node_inode n with
  | Some i => chmod_allowed i
  | None => false
  end.

(** [chmod] can change the mode of the entry [p] names. *)
Definition chmoddable (fs : filesystem) (p : string) : Prop :=
  ∃ n, lookup_path fs p = Some n ∧ node_allowed n = true.

(** The result [b] of a [stat] is the result [a], or the mode of [a]
    without the setuid and setgid bits. *)
Definition cleared_from (a b : outcome Z) : Prop :=
  b = a ∨ ∃ m, a = Done m ∧ b = Done (clear_s m).

(** The filesystem [fs'] is [fs] with the two bits cleared on some
    entries: the same paths resolve, [chmod] is allowed on the same
    entries, and every mode is the old one or the old one without the two
    bits. *)
Definition only_cleared (fs fs' : filesystem) : Prop :=
  ∀ q, cleared_from (os_stat fs q) (os_stat fs' q) ∧
       (chmoddable fs q ↔ chmoddable fs' q).

(** The sample tree after [/bin/b] was deleted, and an environment in
    which that happens while the monitor runs. *)
Definition demo_tree_vanished : node :=
  directory 16877 true
    [("bin", directory 16877 true
               [("a", regular 35309); ("c", regular 33261)]);
     ("secret", directory 16832 false [("x", regular 35309)]);
     ("shared", directory 17917 true [("y", regular 34285)])].

Definition vanish_env : environment :=
  {| read_config := read_config demo_env;
     start_time := 0;
     ticks := instant_ticks;
     drift := λ _, {| fs_root := demo_tree_vanished; fs_cwd := [] |};
     spawn_error := λ _, None |}.

(** ** The walk on an interpreter with a recursion limit *)

(** The source pins no interpreter. Up to CPython 3.11 [os.walk] is a
    recursive generator that holds one frame per directory level. After it
    has yielded a directory it turns to each name of [dirnames] in order,
    joins it to the path, asks whether it is a symbolic link, and enters it
    if it is not; when the recursion limit leaves no room for the next
    level, the first of these calls raises [RecursionError], whether the
    name would be entered or not. From CPython 3.12 on [os.walk] keeps its
    own stack and raises no such error. [recursion_room = Some k] is an
    interpreter on which a walk can go [k] levels below its root, [None]
    one on which it can go to any depth; [recursion_error] is the text of
    the exception. *)
Record interpreter : Type := {
  recursion_room : option nat;
  recursion_error : string
}.

Section UntilRaised.

Context {A B : Type} (step : A → list B * bool).

(** The results of [step] along a list, up to and including the first one
    that raises. *)
Fixpoint until_raised (xs : list A) : list B * bool :=
  match xs with
  | [] => ([], false)
  | x :: rest =>
      let r := step x in
      if r.2 then r
      else let r' := until_raised rest in (r.1 ++ r'.1, r'.2)
  end.

End UntilRaised.

(** [os.walk] with [room] levels left below [top]: the triples it yields,
    and whether it then raises [RecursionError]. A directory is yielded
    before its sub-directories are entered, so the triples yielded before
    the error have been handed to the caller. *)
Fixpoint walk_on (room : option nat) (top : string) (n : node)
    : list (string * list string * list string) * bool :=
  match n with
  | Dir _ _ true ents =>
      let below :=
        until_raised
          (λ '(name, child),
             if is_dir child then
               match room with
               | Some O => ([], true)
               | Some (S k) =>
                   if enters child
                   then walk_on (Some k) (Path.join top name) child
                   else ([], false)
               | None =>
                   if enters child
                   then walk_on None (Path.join top name) child
                   else ([], false)
               end
             else ([], false)) ents in
      ((top, dirnames ents, filenames ents) :: below.1, below.2)
  | _ => ([], false)
  end.

Definition os_walk_on (py : interpreter) (fs : filesystem) (top : string)
    : list (string * list string * list string) * bool :=
  match lookup_path fs top with
  | Some n => walk_on (recursion_room py) top n
  | None => ([], false)
  end.

(** [find_setuid_setgid_files] on the interpreter [py]. A [RecursionError]
    is no [OSError]: neither handler of the function catches it, the
    function raises and its list is lost. The trace holds what was done
    before. *)
Definition find_setuid_setgid_files_on (py : interpreter) (fs : filesystem)
    (root_dir : string) : outcome (list record) * list event :=
  let '(triples, raised) := os_walk_on py fs root_dir in
  let '(setuid_setgid_files, scan_trace) :=
    fold_left (scan_dir fs) triples ([], [SysWalk root_dir]) in
  if raised then (Raised (recursion_error py), scan_trace)
  else (Done setuid_setgid_files, scan_trace).

(** The stages after validation, inside the handler that [main] puts
    around them: an exception of the scan is logged and the process exits
    with status 1. *)
Definition pipeline_on (py : interpreter) (args : Args) (env : environment)
    (w : world) : Z * world :=
  match find_setuid_setgid_files_on py (fs w) default_root_dir with
  | (Raised e, scan_trace) =>
      (1, emit (scan_trace ++ [Log ERROR ("An error occurred: " +:+ e)]) w)
  | (Done setuid_setgid_files, scan_trace) =>
      let w1 :=
        emit (scan_trace ++
              [Log INFO ("Found " +:+ pretty (length setuid_setgid_files)
                         +:+ " files with setuid/setgid bits set.")]) w in
      let '(monitored_processes, _, monitor_trace) :=
        monitor_processes (ticks env) (start_time env) (monitor_time args) in
      let w2 :=
        emit (monitor_trace ++
              [Log INFO ("Monitored " +:+ pretty (size monitored_processes)
                         +:+ " unique processes.")])
             {| fs := drift env (fs w1); trace := trace w1 |} in
      (0, fold_left (process_file env (dry_run args) monitored_processes)
                    setuid_setgid_files w2)
  end.

Definition main_on (py : interpreter) (args : Args) (env : environment)
    (w : world) : Z * world :=
  let w0 := emit [SysOpen (config args)] w in
  match load_config (read_config env) (config args) with
  | Raised e => (1, emit [Log ERROR e] w0)
  | Done _ =>
      if monitor_time args <=? 0
      then (1, emit [Log ERROR "Monitor time must be a positive integer."] w0)
      else pipeline_on py args env w0
  end.

(** What [parse_args] does with the command line: it returns a namespace,
    or prints the help and exits with status 0 ([-h], [--help]), or prints
    a usage error and exits with status 2. *)
Inductive command_line : Type :=
| Parsed (args : Args)
| HelpRequested
| BadArguments.

(** The process from its command line on. *)
Definition run (py : interpreter) (cli : command_line) (env : environment)
    (w : world) : Z * world :=
  match cli with
  | Parsed args => main_on py args env w
  | HelpRequested => (0, w)
  | BadArguments => (2, w)
  end.

(** The number of directory levels a walk of [n] needs room for below
    [n]: one for a directory that holds a sub-directory, entered or not,
    and those of the sub-directories it enters. *)
Fixpoint levels_below (n : node) : nat :=
  match n with
  | Dir _ _ true ents =>
      foldr Nat.max 0%nat
        (map (λ '(name, child),
                if is_dir child
                then S (if enters child then levels_below child else 0%nat)
                else 0%nat) ents)
  | _ => 0%nat
  end.

(** There is room for the walk of [n]. *)
Definition room_for (room : option nat) (n : node) : Prop :=
  match room with
  | Some k => (levels_below n ≤ k)%nat
  | None => True
  end.

Definition fits (py : interpreter) (n : node) : Prop :=
  room_for (recursion_room py) n.

(** The interpreter has room for the walk of what [root_dir] names. *)
Definition scan_fits (py : interpreter) (fs : filesystem) (root_dir : string)
    : Prop :=
  ∀ n, lookup_path fs root_dir = Some n → fits py n.

Definition iterative_walk : interpreter :=
  {| recursion_room := None;
     recursion_error := "maximum recursion depth exceeded" |}.

Definition recursive_walk (k : nat) : interpreter :=
  {| recursion_room := Some k;
     recursion_error :=
       "maximum recursion depth exceeded while calling a Python object" |}.

Definition aborted_message (e : string) : string :=
  "An error occurred: " +:+ e.

(** ** Names for the claim on the inventory *)




(** ** Names for the claim on directories *)

(** [fs'] holds every directory of [fs] where it was, with its inode, and
    no directory where [fs] had none. *)
Definition dirs_kept (fs fs' : filesystem) : Prop :=
  ∀ q, match lookup_path fs q with
       | Some (Dir i l r _) => ∃ ents', lookup_path fs' q = Some (Dir i l r ents')
       | _ => ∀ j l' r' e', lookup_path fs' q ≠ Some (Dir j l' r' e')
       end.

(** The claim that a run changes the mode of no directory: whatever is a
    directory when the loop over the inventory begins has the same mode at
    the end of the run. *)
Definition never_revokes_directory : Prop :=
  ∀ args env fs0 p i l r ents,
    wf_node (fs_root fs0) →
    lookup_path (drift env fs0) p = Some (Dir i l r ents) →
    os_stat (fs (main args env (fresh fs0)).2) p = Done (st_mode i).

(** The sample tree after [/bin/b] was replaced by a setgid directory
    (0o42775), and an environment in which that happens while the monitor
    runs. *)
Definition demo_tree_swapped : node :=
  directory 16877 true
    [("bin", directory 16877 true
               [("a", regular 35309); ("b", directory 17917 true []);
                ("c", regular 33261)]);
     ("secret", directory 16832 false [("x", regular 35309)]);
     ("shared", directory 17917 true [("y", regular 34285)])].

Definition swap_env : environment :=
  {| read_config := read_config demo_env;
     start_time := 0;
     ticks := instant_ticks;
     drift := λ _, {| fs_root := demo_tree_swapped; fs_cwd := [] |};
     spawn_error := λ _, None |}.

(** ** Names for the roots of a scan *)

(** A root path the model resolves as the kernel does: no [..] component,
    which the tree does not hold, and no NUL character, on which
    [os.scandir] raises [ValueError]. *)
Definition plain_root (root_dir : string) : Prop :=
  (".." ∉ Path.components root_dir) ∧ contains "000"%char root_dir = false.

(** * Properties *)

(** ** Paths *)

Section PathFacts.

Lemma append_cons (c : ascii) (s t : string) :
  String c s +:+ t = String c (s +:+ t).
Proof. reflexivity. Qed.

Lemma append_nil_l (t : string) : EmptyString +:+ t = t.
Proof. reflexivity. Qed.

Lemma append_nil_r (s : string) : s +:+ EmptyString = s.
Proof.
  induction s as [|c s IH]; [done |]. by rewrite append_cons, IH.
Qed.

Lemma append_assoc (s t u : string) : (s +:+ t) +:+ u = s +:+ (t +:+ u).
Proof.
  induction s as [|c s IH]; [done |]. by rewrite !append_cons, IH.
Qed.

Lemma append_snoc_cons (cur : string) (c : ascii) (t : string) :
  (cur +:+ String c EmptyString) +:+ t = cur +:+ String c t.
Proof. by rewrite append_assoc. Qed.

(** Splitting at a separator: what is read before it, then what follows. *)
Lemma split_from_app_sep (s t cur : string) :
  Path.split_from cur (s +:+ String Path.sep t)
  = Path.split_from cur s ++ Path.split_from EmptyString t.
Proof.
  revert cur. induction s as [|c s IH]; intros cur.
  - rewrite append_nil_l. simpl. by destruct cur.
  - rewrite append_cons. simpl. destruct (Path.is_sep c).
    + destruct cur; simpl; by rewrite IH.
    + apply IH.
Qed.

(** A stretch without separator is one component. *)
Lemma split_from_no_sep (t cur : string) :
  Path.has_sep t = false → cur +:+ t ≠ EmptyString →
  Path.split_from cur t = [cur +:+ t].
Proof.
  revert cur. induction t as [|c t IH]; intros cur Hsep Hne; simpl in *.
  - rewrite append_nil_r in Hne. rewrite append_nil_r. by destruct cur.
  - apply orb_false_iff in Hsep as [Hc Ht]. rewrite Hc.
    rewrite IH; rewrite ?append_snoc_cons; done.
Qed.

Lemma endswith_sep_inv (a : string) :
  Path.endswith_sep a = true → ∃ a', a = a' +:+ String Path.sep EmptyString.
Proof.
  induction a as [|c a IH]; simpl; [done |].
  destruct a as [|c' a].
  - intros Hc. apply Ascii.eqb_eq in Hc. subst c. by exists EmptyString.
  - intros H. destruct (IH H) as [a' Ha']. exists (String c a').
    by rewrite append_cons, <- Ha'.
Qed.

Lemma valid_name_not_absolute (b : string) :
  Path.valid_name b → Path.startswith_sep b = false.
Proof.
  intros (Hne & Hsep & _). destruct b as [|c b]; [done |]. simpl in *.
  by apply orb_false_iff in Hsep as [? _].
Qed.

(** Joining a name to a directory path adds one component. *)
Lemma components_join (a b : string) :
  Path.valid_name b →
  Path.components (Path.join a b) = Path.components a ++ [b].
Proof.
  intros Hb. pose proof (valid_name_not_absolute b Hb) as Hrel.
  destruct Hb as (Hne & Hsep & _).
  assert (Hone : Path.split_from EmptyString b = [b])
    by (by apply split_from_no_sep).
  unfold Path.components, Path.join. rewrite Hrel.
  destruct a as [|c a]; [done |].
  destruct (Path.endswith_sep (String c a)) eqn:Hend.
  - destruct (endswith_sep_inv _ Hend) as [a' ->].
    rewrite append_assoc, append_cons, append_nil_l.
    rewrite !split_from_app_sep, Hone. simpl. by rewrite app_nil_r.
  - by rewrite split_from_app_sep, Hone.
Qed.

Lemma startswith_sep_join (a b : string) :
  a ≠ EmptyString → Path.valid_name b →
  Path.startswith_sep (Path.join a b) = Path.startswith_sep a.
Proof.
  intros Ha Hb. unfold Path.join. rewrite (valid_name_not_absolute b Hb).
  destruct a as [|c a]; [done |].
  destruct (Path.endswith_sep (String c a)); by rewrite append_cons.
Qed.

Lemma join_not_empty (a b : string) :
  a ≠ EmptyString → Path.valid_name b → Path.join a b ≠ EmptyString.
Proof.
  intros Ha Hb. unfold Path.join. rewrite (valid_name_not_absolute b Hb).
  destruct a as [|c a]; [done |].
  destruct (Path.endswith_sep (String c a)); by rewrite append_cons.
Qed.

End PathFacts.

(** ** The filesystem tree *)

Section TreeFacts.

(** Induction on a tree, with the property for every entry of a directory. *)
Lemma node_tree_ind (P : node → Prop) :
  (∀ st, P (File st)) →
  (∀ i l r ents, Forall (λ e, P e.2) ents → P (Dir i l r ents)) →
  ∀ n, P n.
Proof.
  intros HF HD. fix IH 1. intros [st | i l r ents]; [apply HF |].
  apply HD. induction ents as [|[name child] ents IHents]; constructor.
  - apply IH.
  - apply IHents.
Qed.

Lemma subseteq_cons_inv {A} (x : A) (l k : list A) :
  x :: l ⊆ k → x ∈ k ∧ l ⊆ k.
Proof.
  intros H. split.
  - apply H, elem_of_cons. by left.
  - intros y Hy. apply H, elem_of_cons. by right.
Qed.

Lemma wf_node_dir i l r (ents : list (string * node)) :
  wf_node (Dir i l r ents) ↔
  NoDup (map fst ents) ∧
  Forall (λ e, Path.valid_name e.1 ∧ wf_node e.2) ents.
Proof.
  simpl. apply and_iff_compat_l.
  induction ents as [|[name child] ents IH]; simpl.
  - split; [constructor | done].
  - rewrite Forall_cons. simpl. rewrite IH. tauto.
Qed.

Lemma assoc_elem (name : string) (child : node) (ents : list (string * node)) :
  NoDup (map fst ents) → (name, child) ∈ ents → assoc name ents = Some child.
Proof.
  induction ents as [|[k n] ents IH]; simpl; intros Hnd Hin.
  - by apply elem_of_nil in Hin.
  - apply NoDup_cons in Hnd as [Hk Hnd].
    apply elem_of_cons in Hin as [Heq | Hin].
    + injection Heq as -> ->. by rewrite String.eqb_refl.
    + destruct (String.eqb_spec k name) as [-> | Hne]; [| by apply IH].
      exfalso. apply Hk. apply list_elem_of_fmap. by exists (name, child).
Qed.

Lemma assoc_Some (name : string) (child : node) (ents : list (string * node)) :
  assoc name ents = Some child → (name, child) ∈ ents.
Proof.
  induction ents as [|[k n] ents IH]; simpl; [done |].
  destruct (String.eqb_spec k name) as [-> | Hne].
  - intros [= ->]. apply elem_of_cons. by left.
  - intros H. apply elem_of_cons. right. by apply IH.
Qed.

Lemma resolve_app (n : node) (a b : list string) :
  resolve n (a ++ b) = resolve n a ≫= λ m, resolve m b.
Proof.
  revert n. induction a as [|c a IH]; intros n; simpl; [done |].
  destruct n as [st | i l r ents]; [done |].
  destruct (String.eqb c "."); [apply IH |].
  destruct (assoc c ents); [apply IH | done].
Qed.

Lemma resolve_entry i l r (ents : list (string * node)) name child :
  Path.valid_name name → assoc name ents = Some child →
  resolve (Dir i l r ents) [name] = Some child.
Proof.
  intros (_ & _ & Hdot & _) Hassoc. simpl.
  destruct (String.eqb_spec name ".") as [-> | _]; [done |].
  by rewrite Hassoc.
Qed.

Lemma wf_node_resolve (n m : node) (comps : list string) :
  wf_node n → resolve n comps = Some m → wf_node m.
Proof.
  revert n. induction comps as [|c comps IH]; intros n Hwf; simpl.
  - by intros [= <-].
  - destruct n as [st | i l r ents]; [done |].
    destruct (String.eqb c "."); [by apply IH |].
    destruct (assoc c ents) as [child |] eqn:Hassoc; [| done].
    apply IH. apply wf_node_dir in Hwf as [_ Hall].
    rewrite Forall_forall in Hall.
    by apply (Hall (c, child)), assoc_Some.
Qed.

Lemma lookup_path_not_empty (fs : filesystem) (p : string) (n : node) :
  lookup_path fs p = Some n → p ≠ EmptyString.
Proof. by destruct p. Qed.

Lemma lookup_path_resolve (fs : filesystem) (p : string) :
  p ≠ EmptyString → lookup_path fs p = resolve (fs_root fs) (absolute fs p).
Proof. by destruct p. Qed.

Lemma wf_node_lookup (fs : filesystem) (p : string) (n : node) :
  wf_node (fs_root fs) → lookup_path fs p = Some n → wf_node n.
Proof.
  intros Hwf Hp. pose proof (lookup_path_not_empty _ _ _ Hp) as Hne.
  rewrite lookup_path_resolve in Hp by done. by eapply wf_node_resolve.
Qed.

(** The path [os.path.join] builds for an entry of a directory names that
    entry. *)
Lemma lookup_path_entry (fs : filesystem) (top : string) i l r ents name child :
  lookup_path fs top = Some (Dir i l r ents) →
  Path.valid_name name → assoc name ents = Some child →
  lookup_path fs (Path.join top name) = Some child.
Proof.
  intros Htop Hname Hassoc.
  pose proof (lookup_path_not_empty _ _ _ Htop) as Hne.
  rewrite lookup_path_resolve in Htop by done.
  rewrite lookup_path_resolve by (by apply join_not_empty).
  unfold absolute in *. rewrite startswith_sep_join, components_join by done.
  rewrite app_assoc, resolve_app, Htop. simpl.
  by apply resolve_entry.
Qed.

Lemma lookup_path_wf_entry (fs : filesystem) (top : string) i l r ents name child :
  lookup_path fs top = Some (Dir i l r ents) →
  wf_node (Dir i l r ents) → (name, child) ∈ ents →
  lookup_path fs (Path.join top name) = Some child ∧ wf_node child.
Proof.
  intros Htop Hwf Hin. apply wf_node_dir in Hwf as [Hnd Hall].
  rewrite Forall_forall in Hall. destruct (Hall _ Hin) as [Hname Hchild].
  split; [| done]. eapply lookup_path_entry; eauto using assoc_elem.
Qed.

End TreeFacts.

(** ** The scanner *)

Section ScannerFacts.

Context (fs : filesystem).

Lemma scan_file_records acc root file :
  (scan_file fs root acc file).1 = acc.1 ++ file_records fs root file.
Proof.
  unfold scan_file, file_records.
  destruct (os_stat fs (Path.join root file)) as [mode | e]; simpl.
  - destruct (privileged mode); simpl; by rewrite ?app_nil_r.
  - by rewrite app_nil_r.
Qed.

Lemma fold_scan_file_records root files acc :
  (fold_left (scan_file fs root) files acc).1
  = acc.1 ++ flat_map (file_records fs root) files.
Proof.
  revert acc. induction files as [|file files IH]; intros acc; simpl.
  - by rewrite app_nil_r.
  - by rewrite IH, scan_file_records, <- app_assoc.
Qed.

Lemma scan_dir_records acc triple :
  (scan_dir fs acc triple).1 = acc.1 ++ dir_records fs triple.
Proof.
  destruct triple as [[root dirs] files]. apply fold_scan_file_records.
Qed.

Lemma fold_scan_dir_records triples acc :
  (fold_left (scan_dir fs) triples acc).1
  = acc.1 ++ flat_map (dir_records fs) triples.
Proof.
  revert acc. induction triples as [|t triples IH]; intros acc; simpl.
  - by rewrite app_nil_r.
  - by rewrite IH, scan_dir_records, <- app_assoc.
Qed.

(** The inventory is what the triples of the walk contribute, in order. *)
Lemma find_records root_dir :
  (find_setuid_setgid_files fs root_dir).1
  = flat_map (dir_records fs) (os_walk fs root_dir).
Proof. unfold find_setuid_setgid_files. by rewrite fold_scan_dir_records. Qed.

(** A file entry of a directory found at [top] is judged by its own inode. *)
Lemma file_records_entry top i l r ents name st :
  lookup_path fs top = Some (Dir i l r ents) →
  wf_node (Dir i l r ents) → (name, File st) ∈ ents →
  file_records fs top name
  = from_option (λ x, [x]) [] (expected_record (Path.join top name, st)).
Proof.
  intros Htop Hwf Hin.
  destruct (lookup_path_wf_entry fs top i l r ents name _ Htop Hwf Hin)
    as [Hlook _].
  unfold file_records, os_stat, expected_record. rewrite Hlook. simpl.
  destruct st as [ino | e]; [| done]. by destruct (privileged (st_mode ino)).
Qed.

Lemma files_here_records top i l r ents (es : list (string * node)) :
  lookup_path fs top = Some (Dir i l r ents) →
  wf_node (Dir i l r ents) → es ⊆ ents →
  flat_map (file_records fs top) (filenames es)
  = omap expected_record (files_here top es).
Proof.
  intros Htop Hwf. unfold filenames, files_here.
  induction es as [|[name child] es IH]; intros Hsub; [done |].
  apply subseteq_cons_inv in Hsub as [Hin Hes].
  cbn [filter flat_map]. destruct child as [st | i' l' r' ents']; simpl.
  - rewrite IH by done.
    rewrite (file_records_entry top i l r ents name st) by done.
    by destruct (expected_record (Path.join top name, st)).
  - by apply IH.
Qed.

(** The walk of a well-formed tree inventories the privileged files among
    [tree_files], in the same order. *)
Lemma walk_records (n : node) : ∀ top,
  lookup_path fs top = Some n → wf_node n →
  flat_map (dir_records fs) (walk top n)
  = omap expected_record (tree_files top n).
Proof.
  induction n as [st | i l r ents IH] using node_tree_ind;
    intros top Htop Hwf; [done |].
  destruct r; [| done]. cbn [walk tree_files flat_map].
  rewrite omap_app. f_equal.
  - unfold dir_records. simpl. by eapply files_here_records.
  - assert (Hsub : ents ⊆ ents) by done. revert Hsub IH.
    generalize ents at 1 3 4 5 as es.
    induction es as [|[name child] es IHes]; intros Hsub IH; [done |].
    apply Forall_cons in IH as [IHchild IH]. simpl in IHchild.
    apply subseteq_cons_inv in Hsub as [Hin Hes].
    destruct (lookup_path_wf_entry fs top i l true ents name _ Htop Hwf Hin)
      as [Hlook Hwfc].
    cbn [flat_map]. rewrite flat_map_app, omap_app, IHes by done. f_equal.
    destruct child as [st | i' [|] [|] ents']; simpl; try done.
    by apply IHchild.
Qed.

Lemma find_inventory root_dir :
  wf_node (fs_root fs) →
  (find_setuid_setgid_files fs root_dir).1 = expected_inventory fs root_dir.
Proof.
  intros Hwf. rewrite find_records. unfold os_walk, expected_inventory.
  destruct (lookup_path fs root_dir) as [n |] eqn:Hlook; [| done].
  apply walk_records; [done |]. by eapply wf_node_lookup.
Qed.

End ScannerFacts.

(** ** Reachable files *)

Section ReachFacts.

Lemma entered_trans top n p m q d :
  entered top n p m → entered p m q d → entered top n q d.
Proof.
  intros Hpm Hqd. induction Hqd as [i l ents -> | q i l ents name i' ents' _ IH Hin].
  - done.
  - by eapply entered_sub.
Qed.

Lemma elem_of_files_here top (ents : list (string * node)) p st :
  (p, st) ∈ files_here top ents ↔
  ∃ name, (name, File st) ∈ ents ∧ p = Path.join top name.
Proof.
  unfold files_here. rewrite list_elem_of_In, in_flat_map. split.
  - intros ([name child] & Hin & Hx). apply list_elem_of_In in Hin.
    destruct child as [st' | ]; simpl in Hx; [| done].
    destruct Hx as [[= <- <-] | []]. by exists name.
  - intros (name & Hin & ->). exists (name, File st).
    split; [by apply list_elem_of_In | by left].
Qed.

Lemma elem_of_tree_files_dir top i l ents x :
  x ∈ tree_files top (Dir i l true ents) ↔
  x ∈ files_here top ents ∨
  ∃ name i' ents', (name, Dir i' false true ents') ∈ ents ∧
    x ∈ tree_files (Path.join top name) (Dir i' false true ents').
Proof.
  cbn [tree_files]. rewrite elem_of_app. apply or_iff_compat_l.
  rewrite list_elem_of_In, in_flat_map. split.
  - intros ([name child] & Hin & Hx). apply list_elem_of_In in Hin.
    destruct child as [st | i' [|] [|] ents']; try done.
    exists name, i', ents'. split; [done | by apply list_elem_of_In].
  - intros (name & i' & ents' & Hin & Hx).
    exists (name, Dir i' false true ents').
    split; apply list_elem_of_In; done.
Qed.

Lemma tree_files_entered top n q d x :
  entered top n q d → x ∈ tree_files q d → x ∈ tree_files top n.
Proof.
  induction 1 as [i l ents -> | q i l ents name i' ents' _ IH Hin]; [done |].
  intros Hx. apply IH, elem_of_tree_files_dir. right. eauto.
Qed.

(** [tree_files] lists exactly the reachable files. *)
Lemma tree_files_reachable (n : node) : ∀ top p st,
  (p, st) ∈ tree_files top n ↔ reachable_file top n p st.
Proof.
  induction n as [st' | i l r ents IH] using node_tree_ind; intros top p st.
  - split; [by intros ?%elem_of_nil |].
    intros Hr. destruct Hr as [q i l ents name st Hent Hin].
    exfalso. clear Hin. remember (File st') as n eqn:Hn.
    induction Hent as [| ? ? ? ? ? ? ? ? IHe]; [by subst | by apply IHe].
  - split.
    + destruct r; [| by intros ?%elem_of_nil].
      intros [Hhere | (name & i' & ents' & Hin & Hx)]%elem_of_tree_files_dir.
      * apply elem_of_files_here in Hhere as (name & Hin & ->).
        eapply reachable_entry; [by eapply entered_top | done].
      * rewrite Forall_forall in IH. apply (IH _ Hin) in Hx. simpl in Hx.
        destruct Hx as [q i0 l0 ents0 name0 st0 Hent Hin0].
        eapply reachable_entry; [| done].
        eapply entered_trans; [| exact Hent].
        eapply entered_sub; [by eapply entered_top | done].
    + intros Hr. destruct Hr as [q i0 l0 ents0 name st0 Hent Hin].
      eapply tree_files_entered; [exact Hent |].
      apply elem_of_tree_files_dir. left. apply elem_of_files_here. eauto.
Qed.

Lemma entered_lookup (fs : filesystem) top n q d :
  lookup_path fs top = Some n → wf_node n → entered top n q d →
  lookup_path fs q = Some d ∧ wf_node d.
Proof.
  intros Htop Hwf.
  induction 1 as [i l ents -> | q i l ents name i' ents' _ IH Hin]; [done |].
  destruct IH as [Hq Hwfq]. by eapply lookup_path_wf_entry.
Qed.

(** A reachable file is found by [os.stat] under its path. *)
Lemma reachable_file_lookup (fs : filesystem) top n p st :
  lookup_path fs top = Some n → wf_node n → reachable_file top n p st →
  lookup_path fs p = Some (File st).
Proof.
  intros Htop Hwf Hr. destruct Hr as [q i l ents name st Hent Hin].
  destruct (entered_lookup fs top n q _ Htop Hwf Hent) as [Hq Hwfq].
  by eapply lookup_path_wf_entry.
Qed.

(** Membership in the expected inventory. *)
Lemma elem_of_expected_inventory (fs : filesystem) root_dir p m :
  (p, m) ∈ expected_inventory fs root_dir ↔
  ∃ n i, lookup_path fs root_dir = Some n ∧
         reachable_file root_dir n p (Done i) ∧
         st_mode i = m ∧ privileged m = true.
Proof.
  unfold expected_inventory.
  destruct (lookup_path fs root_dir) as [n |]; cycle 1.
  { split; [by intros ?%elem_of_nil | by intros (? & ? & ? & _)]. }
  rewrite list_elem_of_omap. split.
  - intros ([q st] & Hin & Hrec). unfold expected_record in Hrec.
    simpl in Hrec. destruct st as [i | e]; [| done].
    destruct (privileged (st_mode i)) eqn:Hpriv; [| done].
    injection Hrec as -> <-. exists n, i.
    by rewrite <- tree_files_reachable.
  - intros (n' & i & [= <-] & Hr & <- & Hpriv). exists (p, Done i).
    split; [by apply tree_files_reachable |].
    unfold expected_record. simpl. by rewrite Hpriv.
Qed.

End ReachFacts.

(** ** The trace of a scan *)

Section ScanTrace.

Context (fs : filesystem) (root_dir : string).

Lemma scan_file_events acc root file :
  Forall (scan_event fs root_dir) acc.2 →
  Forall (scan_event fs root_dir) (scan_file fs root acc file).2.
Proof.
  intros Hacc. unfold scan_file.
  destruct (os_stat fs (Path.join root file)) as [mode | e] eqn:Hstat.
  - destruct (privileged mode); simpl; apply Forall_app; split; try done;
      by repeat constructor.
  - simpl. apply Forall_app. split; [done |].
    repeat constructor. simpl. eauto.
Qed.

Lemma scan_dir_events acc triple :
  Forall (scan_event fs root_dir) acc.2 →
  Forall (scan_event fs root_dir) (scan_dir fs acc triple).2.
Proof.
  destruct triple as [[root dirs] files]. simpl. revert acc.
  induction files as [|file files IH]; intros acc Hacc; simpl; [done |].
  by apply IH, scan_file_events.
Qed.

Lemma find_events :
  Forall (scan_event fs root_dir) (find_setuid_setgid_files fs root_dir).2.
Proof.
  unfold find_setuid_setgid_files.
  assert (Hinit : Forall (scan_event fs root_dir)
                    (([] : list record), [SysWalk root_dir]).2)
    by (by repeat constructor).
  revert Hinit. generalize (([] : list record), [SysWalk root_dir]).
  induction (os_walk fs root_dir) as [|t ts IH]; intros acc Hacc; simpl;
    [done |].
  by apply IH, scan_dir_events.
Qed.

End ScanTrace.

(** ** The walk on an interpreter with a recursion limit *)

Section LimitedWalk.

(** With room for every level of the tree, the walk is the walk that
    completes. *)
Lemma walk_on_fits (n : node) : ∀ room top,
  room_for room n → walk_on room top n = (walk top n, false).
Proof.
  induction n as [st | i l r ents IH] using node_tree_ind;
    intros room top Hroom; [done |].
  destruct r; [| done]. cbn [walk_on walk].
  unfold room_for in Hroom. cbn [levels_below] in Hroom.
  match goal with
  | |- context [until_raised ?f ents] =>
      assert (Hbelow : until_raised f ents
                = (flat_map (λ '(name, child),
                               if enters child
                               then walk (Path.join top name) child
                               else []) ents, false))
  end.
  { revert IH Hroom. induction ents as [|[name child] es IHes];
      intros IH Hroom; [done |].
    apply Forall_cons in IH as [IHchild IH]. simpl in IHchild.
    cbn [until_raised flat_map]. cbn [map foldr] in Hroom.
    assert (Hrest : match room with
                    | Some k =>
                        (foldr Nat.max 0%nat
                           (map (λ '(name, child),
                                   if is_dir child
                                   then S (if enters child
                                           then levels_below child else 0%nat)
                                   else 0%nat) es) ≤ k)%nat
                    | None => True
                    end) by (destruct room; [lia | done]).
    rewrite (IHes IH Hrest). clear IHes IH Hrest.
    destruct (is_dir child) eqn:Hdir;
      [| by destruct child as [st | i' [|] r' ents']].
    destruct (enters child) eqn:Hent; destruct room as [[|k] |];
      try done; try lia.
    - rewrite IHchild by (simpl; lia). done.
    - rewrite IHchild by done. done. }
  by rewrite Hbelow.
Qed.

(** Without room for some level of the tree, the walk raises. *)
Lemma walk_on_deep (n : node) : ∀ k top,
  (k < levels_below n)%nat → (walk_on (Some k) top n).2 = true.
Proof.
  induction n as [st | i l r ents IH] using node_tree_ind;
    intros k top Hdeep; [simpl in Hdeep; lia |].
  destruct r; [| simpl in Hdeep; lia].
  cbn [walk_on levels_below] in *. cbn [snd].
  revert IH Hdeep. induction ents as [|[name child] es IHes];
    intros IH Hdeep; [simpl in Hdeep; lia |].
  apply Forall_cons in IH as [IHchild IH]. simpl in IHchild.
  cbn [until_raised]. cbn [map foldr] in Hdeep.
  match goal with
  | |- (if ?b then _ else _).2 = true => destruct b eqn:Hraised
  end; [done |].
  cbn [snd]. apply IHes; [done |].
  destruct (is_dir child) eqn:Hdir; [| lia].
  destruct k as [|k]; [done |].
  destruct (enters child) eqn:Hent; [| lia].
  destruct (Nat.le_gt_cases (levels_below child) k) as [Hle | Hgt]; [lia |].
  by rewrite (IHchild k _ Hgt) in Hraised.
Qed.

Context (py : interpreter) (fs : filesystem).

(** With room for the walk, the scan on the interpreter is the scan of the
    walk that completes. *)
Lemma find_on_fits root_dir :
  scan_fits py fs root_dir →
  find_setuid_setgid_files_on py fs root_dir
  = (Done (find_setuid_setgid_files fs root_dir).1,
     (find_setuid_setgid_files fs root_dir).2).
Proof.
  intros Hfits.
  unfold find_setuid_setgid_files_on, find_setuid_setgid_files,
    os_walk_on, os_walk.
  destruct (lookup_path fs root_dir) as [n |] eqn:Hroot.
  - rewrite (walk_on_fits n _ root_dir (Hfits n Hroot)).
    by destruct (fold_left (scan_dir fs) (walk root_dir n)
                   ([], [SysWalk root_dir])).
  - done.
Qed.

(** Without room for the walk, the scan raises [RecursionError]. *)
Lemma find_on_deep root_dir n k :
  lookup_path fs root_dir = Some n →
  recursion_room py = Some k → (k < levels_below n)%nat →
  (find_setuid_setgid_files_on py fs root_dir).1 = Raised (recursion_error py).
Proof.
  intros Hroot Hroom Hdeep.
  unfold find_setuid_setgid_files_on, os_walk_on. rewrite Hroot, Hroom.
  pose proof (walk_on_deep n k root_dir Hdeep) as Hraised.
  destruct (walk_on (Some k) root_dir n) as [triples raised].
  simpl in Hraised. subst raised.
  by destruct (fold_left (scan_dir fs) triples ([], [SysWalk root_dir])).
Qed.

(** The scan on the interpreter raises exactly when there is no room for
    the walk. *)
Lemma find_on_cases root_dir :
  (scan_fits py fs root_dir ∧
   ∃ inventory, (find_setuid_setgid_files_on py fs root_dir).1 = Done inventory) ∨
  (¬ scan_fits py fs root_dir ∧
   (find_setuid_setgid_files_on py fs root_dir).1 = Raised (recursion_error py)).
Proof.
  destruct (lookup_path fs root_dir) as [n |] eqn:Hroot; cycle 1.
  { left. assert (Hfits : scan_fits py fs root_dir)
      by (intros n Hn; congruence).
    split; [done |]. rewrite find_on_fits by done. eauto. }
  destruct (recursion_room py) as [k |] eqn:Hroom; cycle 1.
  { left. assert (Hfits : scan_fits py fs root_dir).
    { intros n' Hn'. unfold fits, room_for. by rewrite Hroom. }
    split; [done |]. rewrite find_on_fits by done. eauto. }
  destruct (Nat.le_gt_cases (levels_below n) k) as [Hle | Hgt].
  - left. assert (Hfits : scan_fits py fs root_dir).
    { intros n' Hn'. rewrite Hroot in Hn'. injection Hn' as <-.
      unfold fits, room_for. by rewrite Hroom. }
    split; [done |]. rewrite find_on_fits by done. eauto.
  - right. split; [| by eapply find_on_deep].
    intros Hfits. specialize (Hfits n Hroot).
    unfold fits, room_for in Hfits. rewrite Hroom in Hfits. lia.
Qed.

End LimitedWalk.

(** With room for the walk of [/], a run on the interpreter is the run
    whose walk completes. *)
Lemma main_on_fits (py : interpreter) (args : Args) (env : environment)
    (w : world) :
  scan_fits py (fs w) default_root_dir →
  main_on py args env w = main args env w.
Proof.
  intros Hfits. unfold main_on, main.
  destruct (load_config (read_config env) (config args)) as [cfg | e]; [| done].
  destruct (monitor_time args <=? 0); [done |].
  unfold pipeline_on, pipeline.
  change (fs (emit [SysOpen (config args)] w)) with (fs w).
  rewrite find_on_fits by done.
  destruct (find_setuid_setgid_files (fs w) default_root_dir) as [files tr].
  cbn [fst snd].
  by destruct (monitor_processes (ticks env) (start_time env)
                 (monitor_time args)) as [[monitored finish] mtr].
Qed.

(** Without room for the walk of [/], a run that gets past validation logs
    the error and exits with status 1: no count of files, no monitoring, no
    [chmod], and the files as they were. *)
Lemma main_on_deep (py : interpreter) (args : Args) (env : environment)
    (w : world) cfg :
  load_config (read_config env) (config args) = Done cfg →
  0 < monitor_time args →
  ¬ scan_fits py (fs w) default_root_dir →
  ∃ scan_trace,
    (find_setuid_setgid_files_on py (fs w) default_root_dir)
    = (Raised (recursion_error py), scan_trace) ∧
    main_on py args env w
    = (1, {| fs := fs w;
             trace := trace w ++ [SysOpen (config args)] ++ scan_trace
                      ++ [Log ERROR (aborted_message (recursion_error py))] |}).
Proof.
  intros Hcfg Hpos Hdeep.
  destruct (find_on_cases py (fs w) default_root_dir)
    as [[Hfits _] | [_ Hraised]]; [done |].
  destruct (find_setuid_setgid_files_on py (fs w) default_root_dir)
    as [res scan_trace] eqn:Hfind.
  simpl in Hraised. subst res. exists scan_trace. split; [done |].
  unfold main_on. rewrite Hcfg.
  destruct (Z.leb_spec (monitor_time args) 0) as [Hle | _]; [lia |].
  unfold pipeline_on.
  change (fs (emit [SysOpen (config args)] w)) with (fs w).
  rewrite Hfind. unfold emit, aborted_message. simpl.
  by rewrite <- !app_assoc.
Qed.

(** ** The test of the two bits *)





(** ** Privilege Scanner: results *)

(** A record is in the inventory exactly when it is the path and mode of a
    reachable file with one of the two bits. *)
Lemma scanner_complete_aux (fs : filesystem) (root_dir : string) (n : node) :
  wf_node (fs_root fs) →
  lookup_path fs root_dir = Some n →
  ∀ p m, (p, m) ∈ (find_setuid_setgid_files fs root_dir).1 ↔
         ∃ i, reachable_file root_dir n p (Done i) ∧ st_mode i = m ∧
              privileged m = true.
Proof.
  intros Hwf Hroot p m. rewrite find_inventory by done.
  rewrite elem_of_expected_inventory. split.
  - intros (n' & i & Hn' & H). rewrite Hroot in Hn'.
    injection Hn' as <-. eauto.
  - intros (i & H). eauto.
Qed.


(** Checks on trees given in full. *)
Ltac solve_valid_name := repeat split; (done || discriminate).
Ltac solve_NoDup := apply (bool_decide_unpack _); vm_compute; reflexivity.
Ltac solve_wf :=
  repeat (cbn [wf_node demo_tree directory regular map fst];
          first [ exact I | split | solve_NoDup | solve_valid_name ]).

Lemma demo_tree_wf : wf_node demo_tree.
Proof. unfold demo_tree. solve_wf. Defined.


(** The scan of the sample tree: three records, and no line in the log
    although [/secret] could not be listed. *)
Example scan_demo :
  find_setuid_setgid_files demo_fs "/"
  = ([("/bin/a", 35309); ("/bin/b", 35309); ("/shared/y", 34285)],
     [SysWalk "/"; SysStat "/bin/a"; SysStat "/bin/b"; SysStat "/bin/c";
      SysStat "/shared/y"]).
Proof. reflexivity. Qed.

(** C6, on an input where the code departs from it. [/secret] cannot be
    listed. The scan skips it and goes on to [/shared], whose setgid file
    it finds, but it logs nothing: its trace holds the call of [os.walk]
    and the calls of [os.stat], and not one line for [/secret]. The two
    interpreters agree. *)
Example unreadable_dir_skipped_silently :
  lookup_path demo_fs "/secret"
  = Some (directory 16832 false [("x", regular 35309)]) ∧
  find_setuid_setgid_files_on iterative_walk demo_fs "/"
  = (Done [("/bin/a", 35309); ("/bin/b", 35309); ("/shared/y", 34285)],
     [SysWalk "/"; SysStat "/bin/a"; SysStat "/bin/b"; SysStat "/bin/c";
      SysStat "/shared/y"]) ∧
  find_setuid_setgid_files_on (recursive_walk 1) demo_fs "/"
  = find_setuid_setgid_files_on iterative_walk demo_fs "/".
Proof. vm_compute. repeat split; reflexivity. Qed.

(** No scan warns of every directory it could not enter: the scan of the
    sample tree skips [/secret], which cannot be listed, and logs no
    warning. *)
Lemma unreadable_dir_not_warned : ¬ unreadable_dirs_warned.
Proof.
  intros Hclaim.
  destruct (Hclaim demo_fs "/" demo_tree "/"
              {| st_mode := 16877; chmod_allowed := true |} false
              [("bin", directory 16877 true
                         [("a", regular 35309); ("b", regular 35309);
                          ("c", regular 33261)]);
               ("secret", directory 16832 false [("x", regular 35309)]);
               ("shared", directory 17917 true [("y", regular 34285)])]
              "secret" {| st_mode := 16832; chmod_allowed := true |} false
              [("x", regular 35309)])
    as [msg Hmsg].
  - exact demo_tree_wf.
  - reflexivity.
  - by eapply entered_top.
  - apply elem_of_cons. right. apply elem_of_cons. by left.
  - rewrite scan_demo in Hmsg. simpl in Hmsg.
    repeat (apply elem_of_cons in Hmsg as [Hmsg | Hmsg]; [discriminate |]).
    by apply elem_of_nil in Hmsg.
Qed.

(** What the code keeps of the handling of unreadable directories. A
    directory that cannot be listed is skipped and the traversal goes on:
    on an interpreter with room for the walk the scan returns, and every
    file with one of the two bits in a directory the scan enters is in the
    inventory; in particular the files of a readable directory are found
    whatever unreadable directories stand next to it. *)
Lemma scan_skips_unreadable (py : interpreter) (fs : filesystem)
    (root_dir : string) (n : node) :
  wf_node (fs_root fs) →
  lookup_path fs root_dir = Some n →
  fits py n →
  ∃ inventory,
    (find_setuid_setgid_files_on py fs root_dir).1 = Done inventory ∧
    (∀ p i, reachable_file root_dir n p (Done i) →
            privileged (st_mode i) = true → (p, st_mode i) ∈ inventory) ∧
    (∀ q i l ents u iu lu entsu name i' ents' file ino,
       entered root_dir n q (Dir i l true ents) →
       (u, Dir iu lu false entsu) ∈ ents →
       (name, Dir i' false true ents') ∈ ents →
       (file, File (Done ino)) ∈ ents' →
       privileged (st_mode ino) = true →
       (Path.join (Path.join q name) file, st_mode ino) ∈ inventory).
Proof.
  intros Hwf Hroot Hfits.
  assert (Hscan : scan_fits py fs root_dir).
  { intros n' Hn'. rewrite Hroot in Hn'. by injection Hn' as <-. }
  exists (find_setuid_setgid_files fs root_dir).1.
  split; [by rewrite find_on_fits |].
  assert (Hfound : ∀ p i, reachable_file root_dir n p (Done i) →
            privileged (st_mode i) = true →
            (p, st_mode i) ∈ (find_setuid_setgid_files fs root_dir).1).
  { intros p i Hr Hpriv.
    apply (scanner_complete_aux fs root_dir n Hwf Hroot). eauto. }
  split; [done |].
  intros q i l ents u iu lu entsu name i' ents' file ino Hq _ Hname Hfile Hpriv.
  apply Hfound; [| done].
  eapply reachable_entry; [| done]. by eapply entered_sub.
Qed.

(** ** The stages of [main] *)

Section PipelineFacts.

Context (env : environment).

Lemma remove_privileges_dry filepath w :
  remove_privileges (spawn_error env) filepath true w
  = emit [Log INFO (dry_run_message filepath)] w.
Proof. reflexivity. Qed.

Lemma process_file_keep dry monitored w filepath mode :
  filepath ∈ monitored →
  process_file env dry monitored w (filepath, mode)
  = emit [Log INFO (keep_message filepath)] w.
Proof.
  intros Hin. unfold process_file, check_privilege_usage.
  by rewrite bool_decide_eq_true_2.
Qed.

Lemma process_file_revoke dry monitored w filepath mode :
  filepath ∉ monitored →
  process_file env dry monitored w (filepath, mode)
  = remove_privileges (spawn_error env) filepath dry w.
Proof.
  intros Hin. unfold process_file, check_privilege_usage.
  by rewrite bool_decide_eq_false_2.
Qed.

(** [main] after validation: scan, monitor, then the loop. *)
Lemma pipeline_unfold args w :
  pipeline args env w
  = fold_left (process_file env (dry_run args) (observed args env))
              (scanned (fs w)) (before_revocation args env w).
Proof.
  unfold pipeline, before_revocation, observed, scanned, emit.
  destruct (find_setuid_setgid_files (fs w) default_root_dir)
    as [files scan_trace].
  destruct (monitor_processes (ticks env) (start_time env) (monitor_time args))
    as [[monitored finish] monitor_trace].
  simpl. by rewrite <- !app_assoc.
Qed.

(** The trace only grows. *)
Lemma remove_privileges_trace filepath dry w :
  ∃ evs, trace (remove_privileges (spawn_error env) filepath dry w)
         = trace w ++ evs ∧
         chmodded evs ⊆ [filepath] ∧ walked evs = [].
Proof.
  unfold remove_privileges. destruct dry; simpl.
  - eexists. split; [done |]. split; [set_solver | done].
  - destruct (spawn_error env filepath) as [e |]; simpl.
    + eexists. split; [done |]. split; [set_solver | done].
    + destruct (chmod_a_s (fs w) filepath) as [fs' |]; simpl;
        (eexists; split; [done |]; split; [set_solver | done]).
Qed.

Lemma process_file_trace dry monitored w r :
  ∃ evs, trace (process_file env dry monitored w r) = trace w ++ evs ∧
         chmodded evs ⊆ [r.1] ∧ walked evs = [].
Proof.
  destruct r as [filepath mode]. unfold process_file.
  destruct (negb (check_privilege_usage filepath monitored)).
  - apply remove_privileges_trace.
  - eexists. split; [done |]. split; [set_solver | done].
Qed.

Lemma chmodded_app (a b : list event) : chmodded (a ++ b) = chmodded a ++ chmodded b.
Proof. apply omap_app. Qed.

Lemma walked_app (a b : list event) : walked (a ++ b) = walked a ++ walked b.
Proof. apply omap_app. Qed.

Lemma fold_process_file_trace dry monitored files w :
  ∃ evs, trace (fold_left (process_file env dry monitored) files w)
         = trace w ++ evs ∧
         chmodded evs ⊆ map fst files ∧ walked evs = [].
Proof.
  revert w. induction files as [|r files IH]; intros w; simpl.
  - exists []. by rewrite app_nil_r.
  - destruct (process_file_trace dry monitored w r) as (e1 & H1 & Hc1 & Hw1).
    destruct (IH (process_file env dry monitored w r)) as (e2 & H2 & Hc2 & Hw2).
    exists (e1 ++ e2). rewrite H2, H1, <- app_assoc. split; [done |].
    rewrite chmodded_app, walked_app, Hw1, Hw2. split; [| done].
    intros x [Hx | Hx]%elem_of_app; apply elem_of_cons.
    + left. by apply Hc1, list_elem_of_singleton in Hx.
    + right. by apply Hc2.
Qed.

End PipelineFacts.

(** ** Activity Monitor *)

Section MonitorFacts.

Context (ticks : nat → sample) (start_time duration : Z).

Lemma count_passes_app (a b : list event) :
  count_passes (a ++ b) = (count_passes a + count_passes b)%nat.
Proof. unfold count_passes. by rewrite List.filter_app, length_app. Qed.

Lemma fold_observe_proc_passes ps acc :
  count_passes (fold_left observe_proc ps acc).2 = count_passes acc.2.
Proof.
  revert acc. induction ps as [|p ps IH]; intros acc; simpl; [done |].
  rewrite IH. destruct p as [[[|c exe] |] | e]; simpl; try done.
  rewrite count_passes_app. unfold count_passes. simpl. lia.
Qed.

Lemma observe_sample_passes s acc :
  count_passes (observe_sample s acc).2 = S (count_passes acc.2).
Proof.
  unfold observe_sample. rewrite fold_observe_proc_passes. simpl.
  rewrite count_passes_app. unfold count_passes. simpl. lia.
Qed.

Lemma fold_observe_proc_events ps acc :
  Forall monitor_event acc.2 →
  Forall monitor_event (fold_left observe_proc ps acc).2.
Proof.
  revert acc. induction ps as [|p ps IH]; intros acc Hacc; simpl; [done |].
  apply IH. destruct p as [[[|c exe] |] | e]; simpl; try done.
  apply Forall_app. split; [done |]. by repeat constructor.
Qed.

Lemma observe_sample_events s acc :
  Forall monitor_event acc.2 → Forall monitor_event (observe_sample s acc).2.
Proof.
  intros Hacc. unfold observe_sample. apply fold_observe_proc_events. simpl.
  apply Forall_app. split; [done |]. by repeat constructor.
Qed.

Lemma monitor_loop_events i now acc :
  Forall monitor_event acc.2 →
  Forall monitor_event (monitor_loop ticks start_time duration i now acc).2.
Proof.
  funelim (monitor_loop ticks start_time duration i now acc); intros Hacc.
  - done.
  - simpl. apply Forall_app. split; [by apply observe_sample_events |].
    by repeat constructor.
  - match goal with IH : _ → Forall _ _ |- _ => apply IH end. simpl.
    apply Forall_app. split; [by apply observe_sample_events |].
    by repeat constructor.
Qed.

(** Each pass moves the clock by a poll interval at least, so the passes
    still to come are bounded by the time that remains. *)
Lemma monitor_loop_passes i now acc :
  (count_passes (monitor_loop ticks start_time duration i now acc).2
   ≤ count_passes acc.2
     + Z.to_nat ((duration * second - (now - start_time) + poll_interval - 1)
                 / poll_interval))%nat.
Proof.
  funelim (monitor_loop ticks start_time duration i now acc).
  - simpl. lia.
  - simpl. rewrite count_passes_app, observe_sample_passes.
    change (count_passes [Log ERROR _]) with 0%nat.
    unfold poll_interval in *. Z.div_mod_to_equations. lia.
  - match goal with IH : (_ ≤ _)%nat |- _ => etrans; [exact IH |] end.
    simpl. rewrite count_passes_app, observe_sample_passes.
    change (count_passes [SysSleep]) with 0%nat.
    unfold poll_interval in *. Z.div_mod_to_equations. lia.
Qed.

(** When no pass raises, the loop is left at a test that finds the
    duration elapsed. *)
Lemma monitor_loop_lower i now acc :
  never_fails ticks →
  duration * second
  ≤ (monitor_loop ticks start_time duration i now acc).1.2 - start_time.
Proof.
  intros Hok. funelim (monitor_loop ticks start_time duration i now acc).
  - simpl. lia.
  - match goal with H : failure _ = Some _ |- _ => by rewrite Hok in H end.
  - auto.
Qed.

(** It is left before the duration plus the longest pass has elapsed. *)
Lemma monitor_loop_upper (s o : Z) i now acc :
  (∀ j, Z.of_N (sample_time (ticks j)) ≤ s ∧ Z.of_N (oversleep (ticks j)) ≤ o) →
  now - start_time < duration * second + s + poll_interval + o →
  (monitor_loop ticks start_time duration i now acc).1.2 - start_time
  < duration * second + s + poll_interval + o.
Proof.
  intros Hmax. funelim (monitor_loop ticks start_time duration i now acc);
    intros Hnow.
  - done.
  - simpl. destruct (Hmax i). unfold poll_interval. lia.
  - match goal with IH : ∀ s o : Z, _ |- _ => apply IH; try done end.
    destruct (Hmax i). lia.
Qed.

(** A pass that raises ends the loop at once. *)
Lemma monitor_loop_failure i now acc e :
  now - start_time < duration * second →
  failure (ticks i) = Some e →
  monitor_loop ticks start_time duration i now acc
  = ((observe_sample (ticks i) acc).1,
     now + Z.of_N (sample_time (ticks i)),
     (observe_sample (ticks i) acc).2
       ++ [Log ERROR ("Error during process monitoring: " +:+ e)]).
Proof.
  intros Hnow Hfail. simp monitor_loop.
  destruct (Z_lt_dec (now - start_time) (duration * second)); [| done].
  simpl. by rewrite Hfail.
Qed.

Lemma monitor_processes_events :
  Forall monitor_event (monitor_processes ticks start_time duration).2.
Proof.
  unfold monitor_processes.
  pose proof (monitor_loop_events 0 start_time
    (∅, [Log INFO ("Monitoring processes for " +:+ pretty duration
                    +:+ " seconds...")])) as H.
  destruct (monitor_loop _ _ _ _ _ _) as [[created finish] tr]. simpl in *.
  apply Forall_app. split; [| by repeat constructor].
  apply H. by repeat constructor.
Qed.

Lemma monitor_processes_finish :
  (monitor_processes ticks start_time duration).1.2
  = (monitor_loop ticks start_time duration 0 start_time
       (∅, [Log INFO ("Monitoring processes for " +:+ pretty duration
                       +:+ " seconds...")])).1.2.
Proof.
  unfold monitor_processes.
  by destruct (monitor_loop _ _ _ _ _ _) as [[created finish] tr].
Qed.

Lemma monitor_processes_passes :
  (count_passes (monitor_processes ticks start_time duration).2
   ≤ Z.to_nat (10 * duration))%nat.
Proof.
  unfold monitor_processes.
  pose proof (monitor_loop_passes 0 start_time
    (∅, [Log INFO ("Monitoring processes for " +:+ pretty duration
                    +:+ " seconds...")])) as H.
  destruct (monitor_loop _ _ _ _ _ _) as [[created finish] tr]. simpl in *.
  rewrite count_passes_app.
  change (count_passes [Log INFO _]) with 0%nat in *.
  unfold poll_interval, second in *. Z.div_mod_to_equations. lia.
Qed.

End MonitorFacts.

(** A pass of two seconds: monitoring for one second returns after 2.1
    seconds. *)
Example slow_monitor : finish_time slow_ticks 0 1 = 2100000.
Proof. vm_compute. reflexivity. Qed.

(** A first pass that raises after three seconds ends a monitoring of
    sixty seconds there. *)
Example failing_monitor :
  finish_time (λ _, {| procs := []; failure := Some "boom";
                       sample_time := 3000000; oversleep := 0 |}) 0 60
  = 3000000.
Proof.
  unfold finish_time. rewrite monitor_processes_finish.
  rewrite (monitor_loop_failure _ _ _ _ _ _ "boom");
    [reflexivity | unfold second; lia | reflexivity].
Qed.

(** C7, as stated, fails: with passes of two seconds, monitoring for one
    second takes 2.1 seconds, more than one second and a poll interval. *)
Lemma monitor_exceeds_poll_interval : ¬ monitor_within_poll_interval.
Proof.
  intros Hclaim.
  assert (H : 0 < 1) by lia.
  pose proof (Hclaim slow_ticks 0 1 H) as [_ Hupper].
  rewrite slow_monitor in Hupper. unfold second, poll_interval in Hupper. lia.
Qed.

(** C7, amended. On a clock that is not set back while the monitor runs
    (every pass moves the reading of [time.time()] forward by its sampling
    time, the poll interval and the oversleep, none of them negative), and
    for a positive duration D: the sampling loop ends after at most 10 D
    passes over the process table, and before D plus [s], the poll interval
    and [o] have elapsed, where [s] bounds the sampling time and [o] the
    oversleep of every pass; when no pass raises it ends at a test of the
    loop that finds at least D elapsed. *)
Theorem monitor_bound (ticks : nat → sample) (start_time duration s o : Z) :
  0 < duration →
  (∀ j, Z.of_N (sample_time (ticks j)) ≤ s ∧ Z.of_N (oversleep (ticks j)) ≤ o) →
  let r := monitor_processes ticks start_time duration in
  (count_passes r.2 ≤ Z.to_nat (10 * duration))%nat ∧
  r.1.2 - start_time < duration * second + s + poll_interval + o ∧
  (never_fails ticks → duration * second ≤ r.1.2 - start_time).
Proof.
  intros Hpos Hmax r. unfold r. split; [apply monitor_processes_passes |].
  rewrite monitor_processes_finish. split.
  - apply monitor_loop_upper; [done |]. destruct (Hmax 0%nat).
    unfold second, poll_interval. lia.
  - intros Hok. by apply monitor_loop_lower.
Qed.

Lemma monitor_bound_witness :
  let r := monitor_processes instant_ticks 0 1 in
  (count_passes r.2 ≤ Z.to_nat (10 * 1))%nat ∧
  r.1.2 - 0 < 1 * second + 0 + poll_interval + 0 ∧
  1 * second ≤ r.1.2 - 0.
Proof.
  assert (Hpos : 0 < 1) by lia.
  assert (Hmax : ∀ j, Z.of_N (sample_time (instant_ticks j)) ≤ 0 ∧
                      Z.of_N (oversleep (instant_ticks j)) ≤ 0)
    by (intros j; simpl; lia).
  destruct (monitor_bound instant_ticks 0 1 0 0 Hpos Hmax) as (Hn & Hup & Hlow).
  split; [exact Hn |]. split; [exact Hup |].
  apply Hlow. intros j. reflexivity.
Defined.


(** ** Changing a mode in the tree *)

Section AlterFacts.

Lemma assoc_alter_entry (g : node → node) name (ents : list (string * node)) :
  assoc name (alter_entry g name ents) = g <$> assoc name ents.
Proof.
  induction ents as [|[k n] ents IH]; simpl; [done |].
  destruct (String.eqb k name) eqn:Hk; simpl; by rewrite Hk.
Qed.

Lemma alter_entry_ext (g h : node → node) name (ents : list (string * node)) :
  (∀ n, g n = h n) → alter_entry g name ents = alter_entry h name ents.
Proof.
  intros Hext. induction ents as [|[k n] ents IH]; simpl; [done |].
  destruct (String.eqb k name); by rewrite ?Hext, ?IH.
Qed.

Lemma alter_entry_compose (g h : node → node) name (ents : list (string * node)) :
  alter_entry h name (alter_entry g name ents)
  = alter_entry (λ n, h (g n)) name ents.
Proof.
  induction ents as [|[k n] ents IH]; simpl; [done |].
  destruct (String.eqb k name) eqn:Hk; simpl; rewrite Hk; by rewrite ?IH.
Qed.

Lemma alter_entry_id (g : node → node) name child (ents : list (string * node)) :
  assoc name ents = Some child → g child = child →
  alter_entry g name ents = ents.
Proof.
  intros Hassoc Hid. induction ents as [|[k n] ents IH]; simpl in *; [done |].
  destruct (String.eqb k name).
  - injection Hassoc as ->. by rewrite Hid.
  - by rewrite IH.
Qed.

Lemma assoc_alter_entry_ne (g : node → node) name name'
    (ents : list (string * node)) :
  name ≠ name' → assoc name' (alter_entry g name ents) = assoc name' ents.
Proof.
  intros Hne. induction ents as [|[k n] ents IH]; simpl; [done |].
  destruct (String.eqb_spec k name) as [-> | Hk]; simpl.
  - by destruct (String.eqb_spec name name').
  - destruct (String.eqb k name'); [done | apply IH].
Qed.

Section Alter.

Context (f : node → node) (Hdir : ∀ n, is_dir (f n) = is_dir n).

Lemma is_dir_alter_at n comps : is_dir (alter_at f n comps) = is_dir n.
Proof.
  revert n. induction comps as [|c comps IH]; intros n; simpl; [apply Hdir |].
  destruct n as [st | i l r ents]; [done |].
  destruct (String.eqb c "."); [apply IH | done].
Qed.

(** The altered node is found where the node was. *)
Lemma resolve_alter_at n comps m :
  resolve n comps = Some m →
  resolve (alter_at f n comps) comps = Some (f m).
Proof.
  revert n. induction comps as [|c comps IH]; intros n; simpl.
  - by intros [= ->].
  - destruct n as [st | i l r ents]; [done |].
    destruct (String.eqb c ".") eqn:Hc.
    + intros Hres. pose proof (is_dir_alter_at (Dir i l r ents) comps) as Hd.
      destruct (alter_at f (Dir i l r ents) comps) as [st' | i' l' r' ents']
        eqn:Halt; [done |].
      rewrite <- Halt. by apply IH.
    + rewrite assoc_alter_entry.
      destruct (assoc c ents) as [child |]; [| done]. simpl. apply IH.
Qed.

Lemma alter_at_compose (g : node → node) n comps :
  alter_at g (alter_at f n comps) comps = alter_at (λ x, g (f x)) n comps.
Proof.
  revert n. induction comps as [|c comps IH]; intros n; simpl; [done |].
  destruct n as [st | i l r ents]; [done |].
  destruct (String.eqb c ".") eqn:Hc.
  - pose proof (is_dir_alter_at (Dir i l r ents) comps) as Hd.
    rewrite <- IH.
    destruct (alter_at f (Dir i l r ents) comps) as [st' | i' l' r' ents'];
      [done |].
    by rewrite ?Hc.
  - rewrite ?Hc, alter_entry_compose. f_equal.
    by apply alter_entry_ext.
Qed.

End Alter.

Lemma alter_at_ext (f g : node → node) n comps :
  (∀ x, f x = g x) → alter_at f n comps = alter_at g n comps.
Proof.
  intros Hext. revert n.
  induction comps as [|c comps IH]; intros n; simpl; [apply Hext |].
  destruct n as [st | i l r ents]; [done |].
  destruct (String.eqb c "."); [apply IH |].
  f_equal. by apply alter_entry_ext.
Qed.

(** Altering a node into itself changes nothing. *)
Lemma alter_at_id (f : node → node) n comps m :
  resolve n comps = Some m → f m = m → alter_at f n comps = n.
Proof.
  intros Hres Hid. revert n Hres.
  induction comps as [|c comps IH]; intros n; simpl.
  - by intros [= ->].
  - destruct n as [st | i l r ents]; [done |].
    destruct (String.eqb c "."); [apply IH |].
    destruct (assoc c ents) as [child |] eqn:Hassoc; [| done].
    intros Hres. f_equal. eapply alter_entry_id; [done |]. by apply IH.
Qed.

End AlterFacts.

(** ** Clearing the bits *)

Section ClearFacts.

Lemma clear_s_idem (m : Z) : clear_s (clear_s m) = clear_s m.
Proof. unfold clear_s. by rewrite <- Z.land_assoc, Z.land_diag. Qed.

(** A mode without the two bits is left as it is. *)
Lemma clear_s_unprivileged (m : Z) : privileged m = false → clear_s m = m.
Proof.
  unfold privileged, clear_s. intros H.
  apply negb_false_iff, Z.eqb_eq in H.
  rewrite <- Z.ldiff_land.
  rewrite <- (Z.lor_ldiff_and m (Z.lor S_ISUID S_ISGID)) at 2.
  by rewrite H, Z.lor_0_r.
Qed.

Lemma privileged_clear_s (m : Z) : privileged (clear_s m) = false.
Proof.
  unfold privileged, clear_s.
  by rewrite <- Z.land_assoc, (Z.land_comm (Z.lnot _)), Z.land_lnot_diag,
    Z.land_0_r.
Qed.

Lemma clear_node_idem (n : node) : clear_node (clear_node n) = clear_node n.
Proof.
  destruct n as [[i | e] | i l r ents]; simpl; try done;
    unfold clear_inode; simpl; by rewrite clear_s_idem.
Qed.

Lemma is_dir_clear_node (n : node) : is_dir (clear_node n) = is_dir n.
Proof. by destruct n as [[i | e] | i l r ents]. Qed.

Lemma clear_node_unprivileged (n : node) i :
  node_inode n = Some i → privileged (st_mode i) = false → clear_node n = n.
Proof.
  intros Hi Hpriv. apply clear_s_unprivileged in Hpriv.
  destruct n as [[j | e] | j l r ents]; simpl in *; try done;
    injection Hi as ->; unfold clear_inode; rewrite Hpriv; by destruct i.
Qed.

Lemma node_inode_clear_node (n : node) :
  node_inode (clear_node n) = clear_inode <$> node_inode n.
Proof. by destruct n as [[i | e] | i l r ents]. Qed.

Lemma lookup_path_chmod (fs fs' : filesystem) p :
  chmod_a_s fs p = Some fs' →
  ∃ n i, lookup_path fs p = Some n ∧ node_inode n = Some i ∧
         chmod_allowed i = true ∧
         fs' = {| fs_root := alter_at clear_node (fs_root fs) (absolute fs p);
                  fs_cwd := fs_cwd fs |} ∧
         lookup_path fs' p = Some (clear_node n).
Proof.
  unfold chmod_a_s. destruct (lookup_path fs p) as [n |] eqn:Hlook; [| done].
  destruct (node_inode n) as [i |] eqn:Hi; [| done].
  destruct (chmod_allowed i) eqn:Hallowed; [| done].
  intros [= <-]. exists n, i. repeat split; try done.
  pose proof (lookup_path_not_empty _ _ _ Hlook) as Hne.
  rewrite lookup_path_resolve in * by done.
  unfold absolute in *. simpl.
  apply resolve_alter_at; [apply is_dir_clear_node | done].
Qed.

(** Running [chmod a-s] again succeeds and changes nothing more. *)
Lemma chmod_a_s_idem (fs fs' : filesystem) p :
  chmod_a_s fs p = Some fs' → chmod_a_s fs' p = Some fs'.
Proof.
  intros Hch.
  destruct (lookup_path_chmod _ _ _ Hch) as (n & i & Hn & Hi & Hok & -> & Hn').
  unfold chmod_a_s. rewrite Hn', node_inode_clear_node, Hi. simpl.
  rewrite Hok. f_equal. unfold absolute. simpl. f_equal.
  rewrite alter_at_compose by apply is_dir_clear_node.
  apply alter_at_ext, clear_node_idem.
Qed.

(** On a file without the two bits it succeeds and changes nothing. *)
Lemma chmod_a_s_unprivileged (fs fs' : filesystem) p m :
  chmod_a_s fs p = Some fs' → os_stat fs p = Done m →
  privileged m = false → fs' = fs.
Proof.
  intros Hch Hstat Hpriv.
  destruct (lookup_path_chmod _ _ _ Hch) as (n & i & Hn & Hi & Hok & -> & _).
  assert (Hm : st_mode i = m).
  { unfold os_stat in Hstat. rewrite Hn in Hstat.
    destruct n as [[j | e] | j l r ents]; simpl in *; congruence. }
  pose proof (lookup_path_not_empty _ _ _ Hn) as Hne.
  rewrite lookup_path_resolve in Hn by done.
  rewrite (alter_at_id clear_node _ _ n Hn).
  - by destruct fs.
  - eapply clear_node_unprivileged; [done |]. by rewrite Hm.
Qed.

(** The mode it leaves is the old mode without the two bits. *)
Lemma os_stat_chmod (fs fs' : filesystem) p m :
  chmod_a_s fs p = Some fs' → os_stat fs p = Done m →
  os_stat fs' p = Done (clear_s m).
Proof.
  intros Hch Hstat.
  destruct (lookup_path_chmod _ _ _ Hch) as (n & i & Hn & Hi & Hok & _ & Hn').
  unfold os_stat in *. rewrite Hn in Hstat. rewrite Hn'.
  destruct n as [[j | e] | j l r ents]; simpl in *; congruence.
Qed.

End ClearFacts.

(** ** The trace of a run *)

Section RunTrace.

Lemma quiet_walked_chmodded (tr : list event) :
  Forall quiet tr → walked tr = [] ∧ chmodded tr = [].
Proof.
  induction 1 as [|e tr He _ [IHw IHc]]; [done |].
  unfold walked, chmodded in *. cbn [omap list_omap].
  rewrite IHw, IHc. by destruct e.
Qed.

Lemma monitor_event_quiet (tr : list event) :
  Forall monitor_event tr → Forall quiet tr.
Proof. intros H. eapply Forall_impl; [exact H | by intros []]. Qed.

Lemma scan_file_quiet fs root acc file :
  ∃ evs, (scan_file fs root acc file).2 = acc.2 ++ evs ∧ Forall quiet evs.
Proof.
  unfold scan_file.
  destruct (os_stat fs (Path.join root file)) as [mode | e];
    [destruct (privileged mode) |]; simpl;
    (eexists; split; [done | by repeat constructor]).
Qed.

Lemma scan_dir_quiet fs acc triple :
  ∃ evs, (scan_dir fs acc triple).2 = acc.2 ++ evs ∧ Forall quiet evs.
Proof.
  destruct triple as [[root dirs] files]. simpl. revert acc.
  induction files as [|file files IH]; intros acc; simpl.
  - exists []. by rewrite app_nil_r.
  - destruct (scan_file_quiet fs root acc file) as (e1 & H1 & Hq1).
    destruct (IH (scan_file fs root acc file)) as (e2 & H2 & Hq2).
    exists (e1 ++ e2). rewrite H2, H1, <- app_assoc. split; [done |].
    by apply Forall_app.
Qed.

Lemma fold_scan_dir_quiet fs triples acc :
  ∃ evs, (fold_left (scan_dir fs) triples acc).2 = acc.2 ++ evs ∧
         Forall quiet evs.
Proof.
  revert acc. induction triples as [|t triples IH]; intros acc; simpl.
  - exists []. by rewrite app_nil_r.
  - destruct (scan_dir_quiet fs acc t) as (e1 & H1 & Hq1).
    destruct (IH (scan_dir fs acc t)) as (e2 & H2 & Hq2).
    exists (e1 ++ e2). rewrite H2, H1, <- app_assoc. split; [done |].
    by apply Forall_app.
Qed.

(** A scan calls [os.walk] once, on the root it was given, and never runs
    [chmod]. *)
Lemma find_walked fs root_dir :
  walked (find_setuid_setgid_files fs root_dir).2 = [root_dir] ∧
  chmodded (find_setuid_setgid_files fs root_dir).2 = [].
Proof.
  unfold find_setuid_setgid_files.
  destruct (fold_scan_dir_quiet fs (os_walk fs root_dir)
              ([], [SysWalk root_dir])) as (evs & -> & Hq).
  apply quiet_walked_chmodded in Hq as [Hw Hc]. simpl.
  unfold walked, chmodded in *. cbn [omap list_omap]. by rewrite Hw, Hc.
Qed.

Lemma monitor_walked ticks start_time duration :
  walked (monitor_processes ticks start_time duration).2 = [] ∧
  chmodded (monitor_processes ticks start_time duration).2 = [].
Proof.
  apply quiet_walked_chmodded, monitor_event_quiet, monitor_processes_events.
Qed.

Lemma before_revocation_walked args env w :
  walked (trace (before_revocation args env w))
  = walked (trace w) ++ [default_root_dir] ∧
  chmodded (trace (before_revocation args env w)) = chmodded (trace w).
Proof.
  unfold before_revocation. simpl.
  destruct (find_walked (fs w) default_root_dir) as [Hw1 Hc1].
  destruct (monitor_walked (ticks env) (start_time env) (monitor_time args))
    as [Hw2 Hc2].
  rewrite !walked_app, !chmodded_app, Hw1, Hc1, Hw2, Hc2. simpl.
  by rewrite !app_nil_r.
Qed.

(** The run after validation: one walk, from the default root; [chmod]
    runs on inventoried paths only. *)
Lemma pipeline_walked args env w :
  walked (trace (pipeline args env w)) = walked (trace w) ++ [default_root_dir] ∧
  ∃ ps, chmodded (trace (pipeline args env w)) = chmodded (trace w) ++ ps ∧
        ps ⊆ map fst (scanned (fs w)).
Proof.
  rewrite pipeline_unfold.
  destruct (fold_process_file_trace env (dry_run args) (observed args env)
              (scanned (fs w)) (before_revocation args env w))
    as (evs & -> & Hc & Hw).
  destruct (before_revocation_walked args env w) as [Hw0 Hc0].
  rewrite walked_app, chmodded_app, Hw, Hw0, Hc0, app_nil_r. eauto.
Qed.

(** The three ways [main] ends. *)
Lemma main_cases args env w :
  let w0 := emit [SysOpen (config args)] w in
  (∃ e, load_config (read_config env) (config args) = Raised e ∧
        main args env w = (1, emit [Log ERROR e] w0)) ∨
  (∃ cfg, load_config (read_config env) (config args) = Done cfg ∧
          monitor_time args ≤ 0 ∧
          main args env w
          = (1, emit [Log ERROR "Monitor time must be a positive integer."] w0)) ∨
  (∃ cfg, load_config (read_config env) (config args) = Done cfg ∧
          0 < monitor_time args ∧
          main args env w = (0, pipeline args env w0)).
Proof.
  intros w0. unfold main. fold w0.
  destruct (load_config (read_config env) (config args)) as [cfg | e].
  - right. destruct (Z.leb_spec (monitor_time args) 0); [left | right]; eauto.
  - left. eauto.
Qed.

End RunTrace.

(** ** Validation *)

(** C9. A run with a non-positive monitoring duration is rejected before
    the pipeline starts: the exit status is 1, and all the run did was to
    open the configuration file and log one error; it scanned nothing,
    sampled nothing, and ran no [chmod]. *)
Theorem nonpositive_duration_rejected (args : Args) (env : environment)
    (w : world) :
  monitor_time args ≤ 0 →
  let r := main args env w in
  r.1 = 1 ∧ r.1 ≠ 0 ∧ fs r.2 = fs w ∧
  ∃ msg, trace r.2 = trace w ++ [SysOpen (config args); Log ERROR msg].
Proof.
  intros Hle r. unfold r.
  destruct (main_cases args env w)
    as [(e & _ & ->) | [(cfg & _ & _ & ->) | (cfg & _ & Hpos & _)]];
    [| | lia]; simpl; rewrite <- app_assoc; eauto.
Qed.

Lemma nonpositive_duration_rejected_witness :
  let r := main {| config := "config.yaml"; dry_run := false;
                   monitor_time := 0 |} demo_env (fresh demo_fs) in
  r.1 = 1 ∧ r.1 ≠ 0 ∧ fs r.2 = fs (fresh demo_fs) ∧
  ∃ msg, trace r.2 = trace (fresh demo_fs) ++ [SysOpen "config.yaml"; Log ERROR msg].
Proof.
  apply (nonpositive_duration_rejected
           {| config := "config.yaml"; dry_run := false; monitor_time := 0 |}
           demo_env (fresh demo_fs)).
  simpl. lia.
Defined.

(** ** The scan root *)

Lemma elem_of_walked (top : string) (tr : list event) :
  SysWalk top ∈ tr ↔ top ∈ walked tr.
Proof.
  unfold walked. rewrite list_elem_of_omap. split.
  - intros H. by exists (SysWalk top).
  - intros ([] & Hin & Heq); try done. by injection Heq as ->.
Qed.

Lemma elem_of_chmodded (p : string) (tr : list event) :
  SysChmod p ∈ tr ↔ p ∈ chmodded tr.
Proof.
  unfold chmodded. rewrite list_elem_of_omap. split.
  - intros H. by exists (SysChmod p).
  - intros ([] & Hin & Heq); try done. by injection Heq as ->.
Qed.

Lemma main_ran (args : Args) (env : environment) (w : world) :
  (main args env w).1 = 0 →
  (∃ cfg, load_config (read_config env) (config args) = Done cfg) ∧
  0 < monitor_time args ∧
  main args env w = (0, pipeline args env (emit [SysOpen (config args)] w)).
Proof.
  intros H0.
  destruct (main_cases args env w)
    as [(e & _ & Hm) | [(cfg & _ & _ & Hm) | (cfg & Hc & Hpos & Hm)]];
    try (rewrite Hm in H0; discriminate).
  eauto.
Qed.

Example demo_run_status : (main (demo_args false) demo_env (fresh demo_fs)).1 = 0.
Proof. vm_compute. reflexivity. Qed.

(** Whatever a run walks, it walks from the default root. *)
Lemma main_walked (args : Args) (env : environment) (fs0 : filesystem)
    (top : string) :
  SysWalk top ∈ trace (main args env (fresh fs0)).2 → top = default_root_dir.
Proof.
  intros Hin. apply elem_of_walked in Hin.
  destruct (main_cases args env (fresh fs0))
    as [(e & _ & Hm) | [(cfg & _ & _ & Hm) | (cfg & _ & _ & Hm)]];
    rewrite Hm in Hin; simpl in Hin.
  - by apply elem_of_nil in Hin.
  - by apply elem_of_nil in Hin.
  - destruct (pipeline_walked args env
                (emit [SysOpen (config args)] (fresh fs0))) as [Hw _].
    rewrite Hw in Hin. simpl in Hin.
    by apply list_elem_of_singleton in Hin.
Qed.

(** C1, as stated, fails: the configuration names [/opt], and the run
    walks from [/]. *)
Lemma scan_root_not_configured : ¬ scan_root_configured.
Proof.
  intros Hclaim.
  pose proof (Hclaim (demo_args false) demo_env demo_fs
                [("root_path", YStr "/opt")] "/opt"
                eq_refl eq_refl demo_run_status) as Hin.
  apply main_walked in Hin. discriminate.
Qed.

(** C1, amended. A run that gets past validation walks once, from [/],
    the default root of the scanner: nothing the configuration holds changes
    the run. The scanner itself walks from the root it is given. *)
Theorem scan_root_is_default (args : Args) (env : environment)
    (fs0 : filesystem) :
  (main args env (fresh fs0)).1 = 0 →
  walked (trace (main args env (fresh fs0)).2) = ["/"] ∧
  (∀ read cfg, load_config read (config args) = Done cfg →
     main args (with_config read env) (fresh fs0) = main args env (fresh fs0)) ∧
  (∀ fs root_dir, walked (find_setuid_setgid_files fs root_dir).2 = [root_dir]).
Proof.
  intros H0. destruct (main_ran _ _ _ H0) as ((cfg0 & Hcfg0) & Hpos & Hm).
  split; [| split].
  - rewrite Hm. simpl.
    by destruct (pipeline_walked args env
                   (emit [SysOpen (config args)] (fresh fs0))) as [-> _].
  - intros read cfg Hcfg. unfold main. simpl. rewrite Hcfg, Hcfg0.
    destruct (monitor_time args <=? 0); reflexivity.
  - intros fs root_dir. apply find_walked.
Qed.

Lemma scan_root_is_default_witness :
  walked (trace (main (demo_args false) demo_env (fresh demo_fs)).2) = ["/"] ∧
  main (demo_args false) (with_config (λ _, Loaded (YMap [])) demo_env)
       (fresh demo_fs)
  = main (demo_args false) demo_env (fresh demo_fs) ∧
  walked (find_setuid_setgid_files demo_fs "/bin").2 = ["/bin"].
Proof.
  destruct (scan_root_is_default (demo_args false) demo_env demo_fs
              demo_run_status) as (Hroot & Hcfg & Hscan).
  split; [exact Hroot |]. split; [| apply Hscan].
  apply (Hcfg (λ _, Loaded (YMap [])) []). reflexivity.
Defined.

(** ** Correlator *)

Lemma decision_spec (p : string) (s : gset string) :
  (decision p s = KEEP ↔ p ∈ s) ∧ (decision p s = REVOKE ↔ p ∉ s).
Proof.
  unfold decision, check_privilege_usage.
  destruct (decide (p ∈ s)) as [Hin | Hout].
  - rewrite bool_decide_eq_true_2 by done. simpl. split; split; done.
  - rewrite bool_decide_eq_false_2 by done. simpl. split; split; done.
Qed.

(** C2. The decision for a record is KEEP exactly when its path is a
    member of the observed set, and REVOKE otherwise; membership compares
    strings as they are, so a path is kept by a one-element set only when it
    is that very string. The decision depends on nothing else: the loop of
    [main] takes the branch the decision names in every world, with either
    dry-run flag and for any mode. *)
Theorem correlator_decision (p : string) (monitored : gset string) :
  (decision p monitored = KEEP ↔ p ∈ monitored) ∧
  (decision p monitored = REVOKE ↔ p ∉ monitored) ∧
  (check_privilege_usage p monitored = true ↔ p ∈ monitored) ∧
  (∀ q, decision p {[q]} = KEEP ↔ p = q) ∧
  (∀ monitored', (p ∈ monitored ↔ p ∈ monitored') →
     decision p monitored = decision p monitored') ∧
  (∀ env dry w m,
     process_file env dry monitored w (p, m)
     = match decision p monitored with
       | KEEP => emit [Log INFO (keep_message p)] w
       | REVOKE => remove_privileges (spawn_error env) p dry w
       end).
Proof.
  pose proof (decision_spec p) as Hdec.
  split; [apply Hdec |]. split; [apply Hdec |].
  split; [apply bool_decide_eq_true |]. split; [| split].
  - intros q. rewrite (proj1 (Hdec _)). apply elem_of_singleton.
  - intros s' Hiff. destruct (decide (p ∈ monitored)) as [Hin | Hout].
    + rewrite (proj2 (proj1 (Hdec monitored)) Hin).
      symmetry. by apply Hdec, Hiff.
    + rewrite (proj2 (proj2 (Hdec monitored)) Hout).
      symmetry. apply Hdec. by rewrite <- Hiff.
  - intros env dry w m. unfold decision, process_file.
    by destruct (negb (check_privilege_usage p monitored)).
Qed.

Lemma correlator_decision_witness :
  decision "/bin/a" {["/bin/a"]} = KEEP ∧ decision "/bin/b" {["/bin/a"]} = REVOKE.
Proof.
  split.
  - apply (correlator_decision "/bin/a" {["/bin/a"]}). reflexivity.
  - apply (correlator_decision "/bin/b" {["/bin/a"]}).
    apply not_elem_of_singleton. discriminate.
Defined.

(** Two spellings of one file are two paths to the correlator. *)
Example no_normalization :
  lookup_path demo_fs "/bin/./a" = lookup_path demo_fs "/bin/a" ∧
  decision "/bin/./a" {["/bin/a"]} = REVOKE.
Proof. split; reflexivity. Qed.

(** ** Revoker *)

Section RevokerFacts.

Context (env : environment).

(** Under dry-run the loop changes no file and runs no [chmod]; it logs
    what it would have done for every file it does not keep. *)
Lemma fold_process_file_dry monitored files w :
  let w' := fold_left (process_file env true monitored) files w in
  fs w' = fs w ∧
  chmodded (trace w') = chmodded (trace w) ∧
  (∀ e, e ∈ trace w → e ∈ trace w') ∧
  (∀ p m, (p, m) ∈ files → p ∉ monitored →
          Log INFO (dry_run_message p) ∈ trace w').
Proof.
  revert w. induction files as [|[p m] files IH]; intros w; cbn [fold_left].
  - repeat split; try done. by intros p m ?%elem_of_nil.
  - assert (Hstep : ∃ msg, process_file env true monitored w (p, m)
                           = emit [Log INFO msg] w ∧
                           (p ∉ monitored → msg = dry_run_message p)).
    { destruct (decide (p ∈ monitored)) as [Hin | Hout].
      - rewrite process_file_keep by done.
        exists (keep_message p). split; [done | by intros ?].
      - rewrite process_file_revoke by done.
        exists (dry_run_message p). split; done. }
    destruct Hstep as (msg & -> & Hmsg).
    destruct (IH (emit [Log INFO msg] w)) as (Hfs & Hch & Hmono & Hrep).
    simpl in *. rewrite chmodded_app in Hch. simpl in Hch.
    rewrite app_nil_r in Hch.
    repeat split; try done.
    + intros e He. apply Hmono, elem_of_app. by left.
    + intros q mq [[= -> ->] | Hin]%elem_of_cons Hout; [| by eapply Hrep].
      apply Hmono, elem_of_app. right. rewrite Hmsg by done.
      by apply list_elem_of_singleton.
Qed.

(** [remove_privileges] always returns, having logged one of its four
    lines. *)
Lemma remove_privileges_line sp p dry w :
  let w1 := remove_privileges sp p dry w in
  Log INFO (dry_run_message p) ∈ trace w1 ∨
  Log INFO (removed_message p) ∈ trace w1 ∨
  Log ERROR (failed_message p) ∈ trace w1 ∨
  ∃ e, sp p = Some e ∧ Log ERROR (unexpected_message e) ∈ trace w1.
Proof.
  unfold remove_privileges. destruct dry; cbn [negb].
  - left. apply elem_of_app. right. by apply list_elem_of_singleton.
  - destruct (sp p) as [e |].
    { right. right. right. exists e. split; [done |].
      apply elem_of_app. right. by apply list_elem_of_singleton. }
    destruct (chmod_a_s (fs w) p) as [fs' |].
    + right. left. apply elem_of_app. right.
      apply elem_of_cons. right. by apply list_elem_of_singleton.
    + right. right. left. apply elem_of_app. right.
      apply elem_of_cons. right. by apply list_elem_of_singleton.
Qed.

(** Whatever happens to a file, the loop goes on to the next: every file
    that is not kept leaves one of the four lines of [remove_privileges]. *)
Lemma fold_process_file_all dry monitored files w :
  let w' := fold_left (process_file env dry monitored) files w in
  (∀ e, e ∈ trace w → e ∈ trace w') ∧
  (∀ p m, (p, m) ∈ files → p ∉ monitored →
     Log INFO (dry_run_message p) ∈ trace w' ∨
     Log INFO (removed_message p) ∈ trace w' ∨
     Log ERROR (failed_message p) ∈ trace w' ∨
     ∃ e, spawn_error env p = Some e ∧
          Log ERROR (unexpected_message e) ∈ trace w').
Proof.
  revert w. induction files as [|[p m] files IH]; intros w; cbn [fold_left].
  - split; [done |]. by intros p m ?%elem_of_nil.
  - destruct (IH (process_file env dry monitored w (p, m))) as [Hmono Hall].
    destruct (process_file_trace env dry monitored w (p, m))
      as (evs & Htr & _).
    split.
    + intros e He. apply Hmono. rewrite Htr. apply elem_of_app. by left.
    + intros q mq [[= -> ->] | Hin]%elem_of_cons Hout; [| by eapply Hall].
      pose proof (remove_privileges_line (spawn_error env) p dry w) as Hline.
      rewrite <- (process_file_revoke env dry monitored w p m Hout) in Hline.
      destruct Hline as [H | [H | [H | (e & He & H)]]].
      * left. by apply Hmono.
      * right. left. by apply Hmono.
      * right. right. left. by apply Hmono.
      * right. right. right. exists e. split; [done |]. by apply Hmono.
Qed.

End RevokerFacts.

(** C3. With the dry-run flag, [remove_privileges] only logs the line of
    the action it would have taken; a run changes no file (the filesystem it
    leaves is the one it found, up to what other processes did while the
    monitor ran) and runs no [chmod]; and when it gets past validation it
    logs the would-remove line of every inventoried file that the
    correlator does not keep. *)
Theorem dry_run_no_mutation (cfg_path : string) (t : Z) (env : environment)
    (w : world) :
  let args := {| config := cfg_path; dry_run := true; monitor_time := t |} in
  let r := main args env w in
  (∀ sp p w', remove_privileges sp p true w'
              = emit [Log INFO (dry_run_message p)] w') ∧
  (fs r.2 = fs w ∨ fs r.2 = drift env (fs w)) ∧
  chmodded (trace r.2) = chmodded (trace w) ∧
  (r.1 = 0 →
   fs r.2 = drift env (fs w) ∧
   ∀ p m, (p, m) ∈ scanned (fs w) →
          decision p (observed args env) = REVOKE →
          Log INFO (dry_run_message p) ∈ trace r.2).
Proof.
  intros args r. split; [done |].
  assert (Hrun : let w0 := emit [SysOpen cfg_path] w in
            let w' := pipeline args env w0 in
            fs w' = drift env (fs w) ∧
            chmodded (trace w') = chmodded (trace w) ∧
            ∀ p m, (p, m) ∈ scanned (fs w) →
                   decision p (observed args env) = REVOKE →
                   Log INFO (dry_run_message p) ∈ trace w').
  { intros w0 w'. unfold w'. rewrite pipeline_unfold.
    change (dry_run args) with true.
    destruct (fold_process_file_dry env (observed args env) (scanned (fs w0))
                (before_revocation args env w0)) as (Hfs & Hch & _ & Hrep).
    split; [done |]. split.
    - rewrite Hch. destruct (before_revocation_walked args env w0) as [_ ->].
      unfold w0. simpl. rewrite chmodded_app. simpl. by rewrite app_nil_r.
    - intros p m Hin Hdec. eapply Hrep; [exact Hin |].
      by apply (decision_spec p (observed args env)). }
  unfold r.
  destruct (main_cases args env w)
    as [(e & _ & ->) | [(cfg & _ & _ & ->) | (cfg & _ & _ & ->)]]; simpl.
  - split; [by left |]. split; [| done].
    rewrite !chmodded_app. simpl. by rewrite !app_nil_r.
  - split; [by left |]. split; [| done].
    rewrite !chmodded_app. simpl. by rewrite !app_nil_r.
  - destruct Hrun as (Hfs & Hch & Hrep). split; [by right |]. done.
Qed.

Example demo_scanned :
  scanned demo_fs = [("/bin/a", 35309); ("/bin/b", 35309); ("/shared/y", 34285)].
Proof. reflexivity. Qed.

Example demo_dry_run_status :
  (main (demo_args true) demo_env (fresh demo_fs)).1 = 0.
Proof. vm_compute. reflexivity. Qed.

Lemma dry_run_no_mutation_witness :
  let r := main (demo_args true) demo_env (fresh demo_fs) in
  fs r.2 = demo_fs ∧
  chmodded (trace r.2) = [] ∧
  Log INFO (dry_run_message "/bin/b") ∈ trace r.2.
Proof.
  destruct (dry_run_no_mutation "config.yaml" 1 demo_env (fresh demo_fs))
    as (_ & _ & Hch & Hrun).
  destruct (Hrun demo_dry_run_status) as [Hfs Hrep].
  split; [exact Hfs |]. split; [exact Hch |].
  apply (Hrep "/bin/b" 35309).
  - change (scanned (fs (fresh demo_fs))) with (scanned demo_fs).
    rewrite demo_scanned.
    apply elem_of_cons. right. apply elem_of_cons. by left.
  - vm_compute. reflexivity.
Defined.

(** A run that gets past validation ends with status 0 whatever happens
    to the files it revokes, and goes through all of them. *)
Lemma failures_isolated (args : Args) (env : environment) (w : world) cfg :
  load_config (read_config env) (config args) = Done cfg →
  0 < monitor_time args →
  let r := main args env w in
  r.1 = 0 ∧
  ∀ p m, (p, m) ∈ scanned (fs w) → p ∉ observed args env →
    Log INFO (dry_run_message p) ∈ trace r.2 ∨
    Log INFO (removed_message p) ∈ trace r.2 ∨
    Log ERROR (failed_message p) ∈ trace r.2 ∨
    ∃ e, spawn_error env p = Some e ∧
         Log ERROR (unexpected_message e) ∈ trace r.2.
Proof.
  intros Hcfg Hpos r. unfold r.
  destruct (main_cases args env w)
    as [(e & He & _) | [(cfg' & _ & Hle & _) | (cfg' & _ & _ & ->)]];
    [congruence | lia |].
  split; [done |]. simpl. rewrite pipeline_unfold.
  apply (fold_process_file_all env (dry_run args) (observed args env)).
Qed.

(** C5, on an input where the code departs from it. [chmod] cannot be
    started; the run keeps [/bin/a], fails on [/bin/b] and on [/shared/y],
    goes through both and ends with status 0, but the two errors it logs do
    not name the file they are about. *)
Example spawn_failure_logged_without_path :
  let r := main (demo_args false) no_chmod_env (fresh demo_fs) in
  let msg := unexpected_message "[Errno 2] No such file or directory: 'chmod'" in
  r.1 = 0 ∧ fs r.2 = demo_fs ∧
  errors (trace r.2) = [msg; msg] ∧
  mentions "/bin/b" msg = false ∧ mentions "/shared/y" msg = false.
Proof. vm_compute. repeat split; reflexivity. Qed.

(** The sibling handler names the file: a [chmod] that exits with a
    failure is logged with the path. *)
Example chmod_failure_logged_with_path :
  let w := remove_privileges (λ _, None) "/bin/gone" false (fresh demo_fs) in
  errors (trace w) = [failed_message "/bin/gone"] ∧
  mentions "/bin/gone" (failed_message "/bin/gone") = true ∧
  fs w = demo_fs.
Proof. vm_compute. repeat split; reflexivity. Qed.

(** C8. Revocation is idempotent. When [chmod] can be started and succeeds
    on the file, a second call succeeds as well, logs the same line, and
    leaves the filesystem the first call left: the mode is the old mode
    without the two bits after one call and after two. On a file whose bits
    are already cleared the call succeeds and changes nothing. *)
Theorem revoke_idempotent (sp : string → option string) (p : string)
    (w : world) (fs1 : filesystem) (m : Z) :
  sp p = None →
  chmod_a_s (fs w) p = Some fs1 →
  os_stat (fs w) p = Done m →
  let w1 := remove_privileges sp p false w in
  let w2 := remove_privileges sp p false w1 in
  trace w1 = trace w ++ [SysChmod p; Log INFO (removed_message p)] ∧
  trace w2 = trace w1 ++ [SysChmod p; Log INFO (removed_message p)] ∧
  fs w1 = fs1 ∧ fs w2 = fs w1 ∧
  os_stat (fs w1) p = Done (clear_s m) ∧
  os_stat (fs w2) p = Done (clear_s m) ∧
  (privileged m = false → fs w1 = fs w).
Proof.
  intros Hsp Hch Hstat w1 w2.
  assert (Hw1 : w1 = {| fs := fs1;
                        trace := trace w ++ [SysChmod p;
                                             Log INFO (removed_message p)] |}).
  { unfold w1, remove_privileges. simpl. by rewrite Hsp, Hch. }
  assert (Hw2 : w2 = {| fs := fs1;
                        trace := trace w1 ++ [SysChmod p;
                                              Log INFO (removed_message p)] |}).
  { unfold w2, remove_privileges. simpl. rewrite Hsp, Hw1. simpl.
    by rewrite (chmod_a_s_idem _ _ _ Hch). }
  rewrite Hw2, Hw1. simpl. repeat split; try done.
  - by eapply os_stat_chmod.
  - by eapply os_stat_chmod.
  - intros Hpriv. by eapply chmod_a_s_unprivileged.
Qed.

Lemma revoke_idempotent_witness :
  (let w1 := remove_privileges (λ _, None) "/bin/b" false (fresh demo_fs) in
   let w2 := remove_privileges (λ _, None) "/bin/b" false w1 in
   trace w1 = [SysChmod "/bin/b"; Log INFO (removed_message "/bin/b")] ∧
   trace w2 = trace w1 ++ [SysChmod "/bin/b";
                           Log INFO (removed_message "/bin/b")] ∧
   fs w1 = demo_fs_revoked ∧ fs w2 = fs w1 ∧
   os_stat (fs w1) "/bin/b" = Done (clear_s 35309) ∧
   os_stat (fs w2) "/bin/b" = Done (clear_s 35309)) ∧
  fs (remove_privileges (λ _, None) "/bin/c" false (fresh demo_fs)) = demo_fs.
Proof.
  split.
  - destruct (revoke_idempotent (λ _, None) "/bin/b" (fresh demo_fs)
                demo_fs_revoked 35309 eq_refl eq_refl eq_refl)
      as (H1 & H2 & H3 & H4 & H5 & H6 & _).
    repeat split; assumption.
  - destruct (revoke_idempotent (λ _, None) "/bin/c" (fresh demo_fs)
                demo_fs 33261 eq_refl eq_refl eq_refl)
      as (_ & _ & _ & _ & _ & _ & H7).
    apply H7. reflexivity.
Defined.

(** ** What a change of mode leaves of the tree *)

Section KeepsDirs.

(** A node altered somewhere below keeps what [stat] shows of it, up to
    the two bits, and keeps its owner. *)
Lemma node_stat_alter_at (m : node) (L : list string) :
  cleared_from (node_stat m) (node_stat (alter_at clear_node m L)) ∧
  node_allowed (alter_at clear_node m L) = node_allowed m ∧
  is_dir (alter_at clear_node m L) = is_dir m.
Proof.
  revert m. induction L as [|c L IH]; intros m; simpl.
  - destruct m as [[i | e] | i l r ents]; simpl;
      (split; [| done]); try (by left); right; eauto.
  - destruct m as [st | i l r ents]; [split; [by left | done] |].
    destruct (String.eqb c "."); [apply IH |]. split; [by left | done].
Qed.

(** Resolving a path in a tree altered at some place finds nothing where
    there was nothing, and otherwise the node that was there, itself
    altered somewhere or not at all. *)
Lemma resolve_alter_any (L' : list string) : ∀ (n : node) (L : list string),
  match resolve n L' with
  | None => resolve (alter_at clear_node n L) L' = None
  | Some m =>
      ∃ L'', resolve (alter_at clear_node n L) L'
             = Some (alter_at clear_node m L'') ∨
             resolve (alter_at clear_node n L) L' = Some m
  end.
Proof.
  induction L' as [|c L' IH]; intros n L.
  - simpl. exists L. by left.
  - destruct n as [st | i l r ents].
    { simpl. destruct L as [|c0 L]; [by destruct st as [j | e] | done]. }
    induction L as [|c0 L IHL].
    + specialize (IH (Dir i l r ents) []). simpl in *.
      destruct (String.eqb c "."); [exact IH |].
      destruct (assoc c ents) as [child |]; [| done].
      destruct (resolve child L') as [m |]; [| done]. exists []. by right.
    + cbn [alter_at]. destruct (String.eqb_spec c0 ".") as [-> | Hc0];
        [exact IHL |].
      cbn [resolve]. destruct (String.eqb_spec c ".") as [-> | Hc].
      * specialize (IH (Dir i l r ents) (c0 :: L)). cbn [alter_at] in IH.
        destruct (String.eqb_spec c0 ".") as [? | _]; [done |]. exact IH.
      * destruct (String.eqb_spec c0 c) as [-> | Hne].
        -- rewrite assoc_alter_entry.
           destruct (assoc c ents) as [child |]; [| done]. simpl.
           apply IH.
        -- rewrite assoc_alter_entry_ne by done.
           destruct (assoc c ents) as [child |]; [| done].
           destruct (resolve child L') as [m |]; [| done]. exists []. by right.
Qed.

(** A directory altered at a place that is no directory keeps its
    inode. *)
Lemma alter_at_dir (L : list string) i l r ents :
  (∀ j l' r' e', resolve (Dir i l r ents) L ≠ Some (Dir j l' r' e')) →
  ∃ ents', alter_at clear_node (Dir i l r ents) L = Dir i l r ents'.
Proof.
  induction L as [|c L IH]; intros Hfile.
  - by destruct (Hfile i l r ents).
  - cbn [alter_at]. destruct (String.eqb_spec c ".") as [-> | Hc]; [| eauto].
    apply IH. intros j l' r' e' H. by apply (Hfile j l' r' e').
Qed.

(** In a tree altered at a place that is no directory, every directory is
    found where it was, with its inode. *)
Lemma resolve_alter_dir (L' : list string) : ∀ (n : node) (L : list string)
    i l r ents,
  (∀ j l' r' e', resolve n L ≠ Some (Dir j l' r' e')) →
  resolve n L' = Some (Dir i l r ents) →
  ∃ ents', resolve (alter_at clear_node n L) L' = Some (Dir i l r ents').
Proof.
  induction L' as [|c L' IH]; intros n L i l r ents Hfile Hdir.
  - simpl in Hdir. injection Hdir as ->. simpl.
    destruct (alter_at_dir L i l r ents Hfile) as [ents' ->]. eauto.
  - destruct n as [st | i0 l0 r0 ents0]; [done |].
    induction L as [|c0 L IHL].
    + by destruct (Hfile i0 l0 r0 ents0).
    + cbn [alter_at]. destruct (String.eqb_spec c0 ".") as [-> | Hc0].
      { apply IHL. intros j l' r' e' H. by apply (Hfile j l' r' e'). }
      clear IHL. cbn [resolve] in Hdir |- *.
      destruct (String.eqb_spec c ".") as [-> | Hc].
      * specialize (IH (Dir i0 l0 r0 ents0) (c0 :: L) i l r ents Hfile Hdir).
        cbn [alter_at] in IH.
        by destruct (String.eqb_spec c0 ".") as [? | _].
      * destruct (String.eqb_spec c0 c) as [-> | Hne].
        -- rewrite assoc_alter_entry.
           destruct (assoc c ents0) as [child |] eqn:Hchild; [| done]. simpl.
           apply (IH child L i l r ents); [| done]. intros j l' r' e' H.
           apply (Hfile j l' r' e'). cbn [resolve].
           destruct (String.eqb_spec c ".") as [? | _]; [done |].
           by rewrite Hchild.
        -- rewrite assoc_alter_entry_ne by done.
           destruct (assoc c ents0) as [child |]; [| done]. eauto.
Qed.

(** [fs'] holds the directories of [fs], each with its inode, and no
    directory where [fs] had none. *)
Lemma chmod_dirs_kept (fs fs' : filesystem) (p : string) :
  chmod_a_s fs p = Some fs' →
  (∀ j l' r' e', lookup_path fs p ≠ Some (Dir j l' r' e')) →
  dirs_kept fs fs'.
Proof.
  intros Hch Hfile q.
  destruct (lookup_path_chmod _ _ _ Hch) as (n & i & Hp & _ & _ & -> & _).
  set (fs' := {| fs_root := alter_at clear_node (fs_root fs) (absolute fs p);
                 fs_cwd := fs_cwd fs |}).
  pose proof (lookup_path_not_empty _ _ _ Hp) as Hpne.
  destruct (decide (q = EmptyString)) as [-> | Hne]; [done |].
  rewrite lookup_path_resolve in Hfile by done.
  rewrite !lookup_path_resolve by done.
  change (absolute fs' q) with (absolute fs q).
  change (fs_root fs')
    with (alter_at clear_node (fs_root fs) (absolute fs p)).
  pose proof (resolve_alter_any (absolute fs q) (fs_root fs)
                (absolute fs p)) as Hany.
  destruct (resolve (fs_root fs) (absolute fs q))
    as [[st | i0 l0 r0 ents0] |] eqn:Hq.
  - destruct Hany as [L'' [-> | ->]]; [| done].
    destruct (node_stat_alter_at (File st) L'') as (_ & _ & Hkind).
    intros j l' r' e' [= H]. rewrite H in Hkind. done.
  - by eapply resolve_alter_dir.
  - by rewrite Hany.
Qed.

Lemma dirs_kept_refl (fs : filesystem) : dirs_kept fs fs.
Proof.
  intros q. destruct (lookup_path fs q) as [[st | i l r ents] |]; eauto;
    done.
Qed.

Lemma dirs_kept_trans (a b c : filesystem) :
  dirs_kept a b → dirs_kept b c → dirs_kept a c.
Proof.
  intros Hab Hbc q. specialize (Hab q). specialize (Hbc q).
  destruct (lookup_path a q) as [[st | i l r ents] |].
  - by destruct (lookup_path b q) as [[st' | i' l' r' ents'] |];
      [| destruct (Hab i' l' r' ents') |].
  - destruct Hab as [ents' Hb]. by rewrite Hb in Hbc.
  - by destruct (lookup_path b q) as [[st' | i' l' r' ents'] |];
      [| destruct (Hab i' l' r' ents') |].
Qed.

Context (env : environment).

Lemma process_file_dirs_kept dry monitored w p m :
  (∀ j l' r' e', lookup_path (fs w) p ≠ Some (Dir j l' r' e')) →
  dirs_kept (fs w) (fs (process_file env dry monitored w (p, m))).
Proof.
  intros Hfile. unfold process_file.
  destruct (negb (check_privilege_usage p monitored));
    [| apply dirs_kept_refl].
  unfold remove_privileges. destruct dry; simpl; [apply dirs_kept_refl |].
  destruct (spawn_error env p); [apply dirs_kept_refl |].
  destruct (chmod_a_s (fs w) p) as [fs' |] eqn:Hch;
    [by eapply chmod_dirs_kept | apply dirs_kept_refl].
Qed.

(** A loop over paths none of which names a directory leaves every
    directory with its mode. *)
Lemma fold_process_file_dirs_kept dry monitored files : ∀ w,
  (∀ p m, (p, m) ∈ files →
     ∀ j l' r' e', lookup_path (fs w) p ≠ Some (Dir j l' r' e')) →
  dirs_kept (fs w) (fs (fold_left (process_file env dry monitored) files w)).
Proof.
  induction files as [|[p m] files IH]; intros w Hfiles; cbn [fold_left];
    [apply dirs_kept_refl |].
  assert (Hstep : dirs_kept (fs w)
                    (fs (process_file env dry monitored w (p, m)))).
  { apply process_file_dirs_kept. apply (Hfiles p m).
    apply elem_of_cons. by left. }
  eapply dirs_kept_trans; [exact Hstep |]. apply IH.
  intros q mq Hin. specialize (Hstep q).
  assert (Hq : ∀ j l' r' e', lookup_path (fs w) q ≠ Some (Dir j l' r' e')).
  { apply (Hfiles q mq). apply elem_of_cons. by right. }
  destruct (lookup_path (fs w) q) as [[st | i l r ents] |]; try done.
  by destruct (Hq i l r ents).
Qed.

End KeepsDirs.

(** ** Directories *)

(** Every record of the inventory is the path and mode of a file. *)
Lemma inventory_is_files (fs0 : filesystem) (root_dir p : string) (m : Z) :
  wf_node (fs_root fs0) →
  (p, m) ∈ (find_setuid_setgid_files fs0 root_dir).1 →
  ∃ i, lookup_path fs0 p = Some (File (Done i)) ∧ st_mode i = m.
Proof.
  intros Hwf Hin. rewrite find_inventory in Hin by done.
  apply elem_of_expected_inventory in Hin as (n & i & Hroot & Hr & Hm & _).
  exists i. split; [| done].
  eapply reachable_file_lookup; [exact Hroot | | exact Hr].
  by eapply wf_node_lookup.
Qed.

(** A run in which [/bin/b] is replaced by a setgid directory while the
    monitor runs: [chmod] runs on the path and clears the bit of the
    directory (0o42775 becomes 0o40775). *)
Example swap_run :
  (main (demo_args false) swap_env (fresh demo_fs)).1 = 0 ∧
  chmodded (trace (main (demo_args false) swap_env (fresh demo_fs)).2)
  = ["/bin/b"; "/shared/y"] ∧
  os_stat (fs (main (demo_args false) swap_env (fresh demo_fs)).2) "/bin/b"
  = Done 16893.
Proof. vm_compute. repeat split; reflexivity. Qed.

(** C10, as stated, fails: the inventory holds no directory, but a path of
    the inventory can name a directory by the time the run revokes, and the
    run then clears the bits of that directory. *)
Lemma directory_revoked_after_swap : ¬ never_revokes_directory.
Proof.
  intros Hclaim.
  pose proof (Hclaim (demo_args false) swap_env demo_fs "/bin/b"
                {| st_mode := 17917; chmod_allowed := true |} false true []
                demo_tree_wf eq_refl) as Hstat.
  destruct swap_run as (_ & _ & Hrun). rewrite Hrun in Hstat.
  discriminate Hstat.
Qed.

(** C10, amended. The inventory holds files only: the path of a record
    names a non-directory entry whose mode is the mode of the record, so no
    directory is inventoried, whatever its mode; every [chmod] of a run is
    on a path that named a non-directory entry in the filesystem the run
    scanned; and a run in which no path of the inventory names a directory
    when the loop over the inventory begins leaves every directory with the
    mode it has then. *)
Theorem directories_never_inventoried (fs0 : filesystem) :
  wf_node (fs_root fs0) →
  (∀ root_dir p m,
     (p, m) ∈ (find_setuid_setgid_files fs0 root_dir).1 →
     ∃ i, lookup_path fs0 p = Some (File (Done i)) ∧ st_mode i = m) ∧
  (∀ root_dir p m i l r ents,
     lookup_path fs0 p = Some (Dir i l r ents) →
     (p, m) ∉ (find_setuid_setgid_files fs0 root_dir).1) ∧
  (∀ args env p,
     SysChmod p ∈ trace (main args env (fresh fs0)).2 →
     ∃ i, lookup_path fs0 p = Some (File (Done i))) ∧
  (∀ args env,
     (main args env (fresh fs0)).1 = 0 →
     (∀ p m, (p, m) ∈ scanned fs0 →
        ∀ j l' r' e', lookup_path (drift env fs0) p ≠ Some (Dir j l' r' e')) →
     ∀ q i l r ents,
       lookup_path (drift env fs0) q = Some (Dir i l r ents) →
       os_stat (fs (main args env (fresh fs0)).2) q = Done (st_mode i)).
Proof.
  intros Hwf. split; [| split; [| split]]; cycle 3.
  { intros args env H0 Hfiles q i l r ents Hq.
    destruct (main_ran _ _ _ H0) as (_ & _ & ->). cbn [snd].
    rewrite pipeline_unfold.
    pose proof (fold_process_file_dirs_kept env (dry_run args)
                  (observed args env)
                  (scanned (fs (emit [SysOpen (config args)] (fresh fs0))))
                  (before_revocation args env
                     (emit [SysOpen (config args)] (fresh fs0)))
                  Hfiles q) as Hkept.
    change (fs (before_revocation args env
                  (emit [SysOpen (config args)] (fresh fs0))))
      with (drift env fs0) in Hkept at 1.
    rewrite Hq in Hkept. destruct Hkept as [ents' Hkept].
    unfold os_stat. by rewrite Hkept. }
  - intros root_dir p m. by apply inventory_is_files.
  - intros root_dir p m i l r ents Hdir Hin.
    destruct (inventory_is_files _ _ _ _ Hwf Hin) as (j & Hfile & _).
    congruence.
  - intros args env p Hin. apply elem_of_chmodded in Hin.
    destruct (main_cases args env (fresh fs0))
      as [(e & _ & Hm) | [(cfg & _ & _ & Hm) | (cfg & _ & _ & Hm)]];
      rewrite Hm in Hin; simpl in Hin.
    + by apply elem_of_nil in Hin.
    + by apply elem_of_nil in Hin.
    + destruct (pipeline_walked args env
                  (emit [SysOpen (config args)] (fresh fs0)))
        as (_ & ps & Hps & Hsub).
      rewrite Hps in Hin. simpl in Hin. apply Hsub in Hin.
      apply list_elem_of_fmap in Hin as ([q m] & -> & Hq).
      destruct (inventory_is_files _ _ _ _ Hwf Hq) as (i & Hfile & _).
      eauto.
Qed.

Example demo_run_chmodded :
  chmodded (trace (main (demo_args false) demo_env (fresh demo_fs)).2)
  = ["/bin/b"; "/shared/y"].
Proof. vm_compute. reflexivity. Qed.

Lemma directories_never_inventoried_witness :
  (∃ i, lookup_path demo_fs "/shared/y" = Some (File (Done i)) ∧
        st_mode i = 34285) ∧
  (∀ m, ("/shared", m) ∉ (find_setuid_setgid_files demo_fs "/").1) ∧
  (∃ i, lookup_path demo_fs "/bin/b" = Some (File (Done i))) ∧
  os_stat (fs (main (demo_args false) demo_env (fresh demo_fs)).2) "/shared"
  = Done 17917.
Proof.
  destruct (directories_never_inventoried demo_fs demo_tree_wf)
    as (Hfiles & Hdirs & Hchmod & Hkept).
  split; [| split; [| split]].
  - apply (Hfiles "/"). rewrite scan_demo.
    do 2 (apply elem_of_cons; right). apply elem_of_cons. by left.
  - intros m. eapply Hdirs. reflexivity.
  - apply (Hchmod (demo_args false) demo_env).
    apply elem_of_chmodded. rewrite demo_run_chmodded.
    apply elem_of_cons. by left.
  - apply (Hkept (demo_args false) demo_env demo_run_status) with
      (l := false) (r := true) (ents := [("y", regular 34285)])
      (i := {| st_mode := 17917; chmod_allowed := true |});
      [| reflexivity].
    intros p m Hin. rewrite demo_scanned in Hin.
    repeat (apply elem_of_cons in Hin as [[= -> ->] | Hin];
            [intros j l' r' e'; discriminate |]).
    by apply elem_of_nil in Hin.
Defined.

(** * Further properties *)

(** ** Exit status and configuration *)

(** X1. The exit status of the process. It is the status of [parse_args]
    when that exits: 0 for the help, 2 for a command line it rejects.
    Otherwise it is 0 exactly when the configuration file holds a mapping,
    the monitoring time is positive and the interpreter has room for the
    walk of [/], and 1 in every other case: nothing that happens to a file
    during the scan, the monitoring or the revocations changes it. *)
Theorem exit_status_spec (py : interpreter) (cli : command_line)
    (env : environment) (w : world) :
  let status := (run py cli env w).1 in
  (status = 0 ↔
   cli = HelpRequested ∨
   ∃ args, cli = Parsed args ∧
     (∃ cfg, read_config env (config args) = Loaded (YMap cfg)) ∧
     0 < monitor_time args ∧
     scan_fits py (fs w) default_root_dir) ∧
  (status = 2 ↔ cli = BadArguments) ∧
  (status = 0 ∨ status = 1 ∨ status = 2).
Proof.
  destruct cli as [args | |]; simpl.
  2: { split; [| split]; [| | by left].
       - split; [by left | done].
       - split; [done | discriminate]. }
  2: { split; [| split]; [| | by right; right].
       - split; [done |]. intros [H | (args & H & _)]; discriminate.
       - done. }
  assert (Hload : ∀ cfg,
            load_config (read_config env) (config args) = Done cfg ↔
            read_config env (config args) = Loaded (YMap cfg)).
  { intros cfg. unfold load_config.
    destruct (read_config env (config args)) as [| e | e | []];
      split; intros H; try discriminate; congruence. }
  assert (Hcases :
    ((main_on py args env w).1 = 0 ∧
     (∃ cfg, read_config env (config args) = Loaded (YMap cfg)) ∧
     0 < monitor_time args ∧ scan_fits py (fs w) default_root_dir) ∨
    ((main_on py args env w).1 = 1 ∧
     ¬ ((∃ cfg, read_config env (config args) = Loaded (YMap cfg)) ∧
        0 < monitor_time args ∧ scan_fits py (fs w) default_root_dir))).
  { destruct (load_config (read_config env) (config args)) as [cfg | e] eqn:Hc.
    - destruct (Z.leb_spec (monitor_time args) 0) as [Hle | Hpos].
      + right. unfold main_on. rewrite Hc.
        destruct (Z.leb_spec (monitor_time args) 0); [| lia].
        split; [done |]. intros (_ & Hpos & _). lia.
      + destruct (find_on_cases py (fs w) default_root_dir)
          as [[Hfits _] | [Hdeep _]].
        * left. rewrite main_on_fits by done.
          destruct (main_cases args env w)
            as [(e & He & _) | [(cfg' & _ & Hle & _) | (cfg' & _ & _ & ->)]];
            [congruence | lia |].
          split; [done |]. split; [| done]. exists cfg. by apply Hload.
        * right.
          destruct (main_on_deep py args env w cfg Hc Hpos Hdeep)
            as (tr & _ & ->).
          split; [done |]. by intros (_ & _ & Hfits).
    - right. unfold main_on. rewrite Hc. split; [done |].
      intros [(cfg & Hcfg%Hload) _]. congruence. }
  destruct Hcases as [(-> & Hok) | (-> & Hno)].
  - split; [| split]; [| | by left].
    + split; [| done]. intros _. right. by exists args.
    + split; [done | discriminate].
  - split; [| split]; [| | by right; left].
    + split; [done |]. intros [H | (args' & [= <-] & H)]; [discriminate | done].
    + split; [done | discriminate].
Qed.

(** X2. When the configuration cannot be loaded, the run opens the file,
    logs one error that says why, and exits with status 1; it does so
    whatever the monitoring time is, before any scan, sample or [chmod]. A
    document that is not a mapping is reported through the last handler of
    [load_config], with its text wrapped once more. *)
Theorem config_error_fatal (args : Args) (env : environment) (w : world) :
  (∀ cfg, read_config env (config args) ≠ Loaded (YMap cfg)) →
  ∃ msg,
    main args env w
    = (1, {| fs := fs w;
             trace := trace w ++ [SysOpen (config args); Log ERROR msg] |}) ∧
    msg = match read_config env (config args) with
          | NoSuchFile => "Configuration file not found: " +:+ config args
          | BadYaml e => "Error parsing YAML file: " +:+ e
          | OtherFailure e => "Failed to load configuration: " +:+ e
          | Loaded _ =>
              "Failed to load configuration: Configuration file must contain a dictionary."
          end.
Proof.
  intros Hbad. unfold main, load_config, emit.
  destruct (read_config env (config args)) as [| e | e | v]; simpl;
    try (eexists; split; [by rewrite <- app_assoc | done]).
  destruct v as [| b | z | s | items | items];
    try (eexists; split; [by rewrite <- app_assoc | done]).
  by destruct (Hbad items).
Qed.

Lemma config_error_fatal_witness :
  ∃ msg,
    main default_args (with_config (λ _, Loaded (YSeq [])) demo_env)
         (fresh demo_fs)
    = (1, {| fs := demo_fs;
             trace := [SysOpen "config.yaml"; Log ERROR msg] |}) ∧
    msg = "Failed to load configuration: Configuration file must contain a dictionary.".
Proof.
  apply (config_error_fatal default_args
           (with_config (λ _, Loaded (YSeq [])) demo_env) (fresh demo_fs)).
  intros cfg. discriminate.
Defined.

(** ** The order of the stages and the targets of [chmod] *)

Section StageFacts.

Context (env : environment).

Lemma remove_privileges_events filepath dry w :
  ∃ evs, trace (remove_privileges (spawn_error env) filepath dry w)
         = trace w ++ evs ∧ Forall revoke_event evs ∧
         chmodded evs
         = match (if dry then None
                  else match spawn_error env filepath with
                       | Some _ => None
                       | None => Some filepath
                       end) with
           | Some p => [p]
           | None => []
           end.
Proof.
  unfold remove_privileges. destruct dry; simpl.
  - eexists. split; [done |]. split; [by repeat constructor | done].
  - destruct (spawn_error env filepath) as [e |]; simpl.
    + eexists. split; [done |]. split; [by repeat constructor | done].
    + destruct (chmod_a_s (fs w) filepath) as [fs' |]; simpl;
        (eexists; split; [done |]; split; [by repeat constructor | done]).
Qed.

Lemma process_file_events dry monitored w r :
  ∃ evs, trace (process_file env dry monitored w r) = trace w ++ evs ∧
         Forall revoke_event evs ∧
         chmodded evs = option_list (chmod_target env dry monitored r).
Proof.
  destruct r as [filepath mode]. unfold process_file, chmod_target. simpl.
  destruct (check_privilege_usage filepath monitored); simpl.
  - eexists. split; [done |]. split; [by repeat constructor | done].
  - destruct (remove_privileges_events filepath dry w)
      as (evs & Htr & Hev & Hch).
    exists evs. split; [done |]. split; [done |]. rewrite Hch.
    destruct dry; [done |]. by destruct (spawn_error env filepath).
Qed.

(** The loop writes log lines and runs of [chmod], the latter on the
    targets of its records, in order. *)
Lemma fold_process_file_events dry monitored files w :
  ∃ evs, trace (fold_left (process_file env dry monitored) files w)
         = trace w ++ evs ∧ Forall revoke_event evs ∧
         chmodded evs = omap (chmod_target env dry monitored) files.
Proof.
  revert w. induction files as [|r files IH]; intros w; cbn [fold_left].
  - exists []. by rewrite app_nil_r.
  - destruct (process_file_events dry monitored w r) as (e1 & H1 & Hq1 & Hc1).
    destruct (IH (process_file env dry monitored w r)) as (e2 & H2 & Hq2 & Hc2).
    exists (e1 ++ e2). rewrite H2, H1, <- app_assoc. split; [done |].
    split; [by apply Forall_app |].
    rewrite chmodded_app, Hc1, Hc2. cbn [omap list_omap].
    by destruct (chmod_target env dry monitored r).
Qed.

End StageFacts.

(** X3. The stages of a run follow one another without overlap: the trace
    of a run that gets past validation is the opening of the configuration,
    the whole scan of [/], the line with the number of records, the whole
    monitoring, the line with the number of distinct executables, and then
    the loop over the inventory, which alone runs [chmod]. *)
Theorem stages_in_order (args : Args) (env : environment) (fs0 : filesystem) :
  (main args env (fresh fs0)).1 = 0 →
  ∃ revoke,
    trace (main args env (fresh fs0)).2
    = [SysOpen (config args)]
      ++ (find_setuid_setgid_files fs0 "/").2
      ++ [Log INFO (found_message (length (scanned fs0)))]
      ++ (monitor_processes (ticks env) (start_time env) (monitor_time args)).2
      ++ [Log INFO (monitored_message (size (observed args env)))]
      ++ revoke ∧
    Forall (scan_event fs0 "/") (find_setuid_setgid_files fs0 "/").2 ∧
    Forall monitor_event
      (monitor_processes (ticks env) (start_time env) (monitor_time args)).2 ∧
    Forall revoke_event revoke.
Proof.
  intros H0. destruct (main_ran _ _ _ H0) as (_ & _ & ->). simpl.
  rewrite pipeline_unfold.
  destruct (fold_process_file_events env (dry_run args) (observed args env)
              (scanned (fs (emit [SysOpen (config args)] (fresh fs0))))
              (before_revocation args env
                 (emit [SysOpen (config args)] (fresh fs0))))
    as (revoke & -> & Hrev & _).
  exists revoke. split; [| split; [apply find_events | split]].
  - unfold before_revocation. simpl. by rewrite <- !app_assoc.
  - apply monitor_processes_events.
  - done.
Qed.

Lemma stages_in_order_witness :
  ∃ revoke,
    trace (main (demo_args false) demo_env (fresh demo_fs)).2
    = [SysOpen "config.yaml"]
      ++ (find_setuid_setgid_files demo_fs "/").2
      ++ [Log INFO (found_message (length (scanned demo_fs)))]
      ++ (monitor_processes instant_ticks 0 1).2
      ++ [Log INFO (monitored_message
                      (size (observed (demo_args false) demo_env)))]
      ++ revoke ∧
    Forall (scan_event demo_fs "/") (find_setuid_setgid_files demo_fs "/").2 ∧
    Forall monitor_event (monitor_processes instant_ticks 0 1).2 ∧
    Forall revoke_event revoke.
Proof.
  apply (stages_in_order (demo_args false) demo_env demo_fs).
  exact demo_run_status.
Defined.

(** X4. [chmod] runs on inventoried paths that were not seen running, and
    on no other path; when the run is not a dry run and [chmod] can be
    started, it runs once for each such record, in the order of the
    inventory. *)
Theorem chmod_targets (args : Args) (env : environment) (fs0 : filesystem) :
  (main args env (fresh fs0)).1 = 0 →
  let ran := chmodded (trace (main args env (fresh fs0)).2) in
  ran = omap (chmod_target env (dry_run args) (observed args env))
             (scanned fs0) ∧
  (∀ p, p ∈ ran → p ∈ map fst (scanned fs0) ∧ p ∉ observed args env) ∧
  (dry_run args = false → (∀ p, spawn_error env p = None) →
   ran = map fst (List.filter
                    (λ r, negb (check_privilege_usage r.1 (observed args env)))
                    (scanned fs0))).
Proof.
  intros H0 ran.
  assert (Hran : ran = omap (chmod_target env (dry_run args) (observed args env))
                            (scanned fs0)).
  { unfold ran. destruct (main_ran _ _ _ H0) as (_ & _ & ->). simpl.
    rewrite pipeline_unfold.
    destruct (fold_process_file_events env (dry_run args) (observed args env)
                (scanned (fs (emit [SysOpen (config args)] (fresh fs0))))
                (before_revocation args env
                   (emit [SysOpen (config args)] (fresh fs0))))
      as (revoke & -> & _ & Hch).
    destruct (before_revocation_walked args env
                (emit [SysOpen (config args)] (fresh fs0))) as [_ Hc0].
    by rewrite chmodded_app, Hc0, Hch. }
  split; [done |]. split.
  - intros p. rewrite Hran, list_elem_of_omap.
    intros ([q m] & Hin & Ht). unfold chmod_target in Ht. simpl in Ht.
    destruct (check_privilege_usage q (observed args env)) eqn:Hobs;
      [done |].
    destruct (dry_run args); [done |].
    destruct (spawn_error env q); [done |]. injection Ht as ->. split.
    + apply list_elem_of_fmap. by exists (p, m).
    + intros Hp. unfold check_privilege_usage in Hobs.
      by rewrite bool_decide_eq_true_2 in Hobs.
  - intros Hdry Hsp. rewrite Hran, Hdry. clear Hran ran.
    induction (scanned fs0) as [|[q m] files IH]; [done |].
    cbn [omap list_omap List.filter]. unfold chmod_target at 1. simpl.
    rewrite Hsp.
    destruct (check_privilege_usage q (observed args env)); simpl;
      by rewrite IH.
Qed.

Lemma chmod_targets_witness :
  let ran := chmodded (trace (main (demo_args false) demo_env
                                (fresh demo_fs)).2) in
  ran = omap (chmod_target demo_env false (observed (demo_args false) demo_env))
             (scanned demo_fs) ∧
  ("/bin/b" ∈ map fst (scanned demo_fs) ∧
   "/bin/b" ∉ observed (demo_args false) demo_env) ∧
  ran = map fst (List.filter
                   (λ r, negb (check_privilege_usage r.1
                                 (observed (demo_args false) demo_env)))
                   (scanned demo_fs)).
Proof.
  destruct (chmod_targets (demo_args false) demo_env demo_fs demo_run_status)
    as (Hran & Hin & Hall).
  split; [exact Hran |]. split.
  - apply Hin. rewrite demo_run_chmodded. apply elem_of_cons. by left.
  - apply Hall; [reflexivity | intros p; reflexivity].
Defined.

(** ** What the monitor returns *)

Section MonitorSet.

Context (ticks : nat → sample) (start_time duration : Z).

Lemma fold_observe_proc_set ps acc exe :
  exe ∈ (fold_left observe_proc ps acc).1 ↔
  exe ∈ acc.1 ∨ (exe ≠ EmptyString ∧ ProcInfo (Some exe) ∈ ps).
Proof.
  revert acc. induction ps as [|p ps IH]; intros acc; cbn [fold_left].
  - split; [by left |]. intros [H | [_ H]]; [done |].
    by apply elem_of_nil in H.
  - rewrite IH. rewrite elem_of_cons.
    destruct p as [[[|c s] |] | e]; simpl.
    + split; [intros [H | [Hne H]]; [by left | right; split; [done | by right]] |].
      intros [H | [Hne [[= ->] | H]]]; [by left | done | right; by split].
    + rewrite elem_of_union, elem_of_singleton.
      split.
      * intros [[-> | H] | [Hne H]];
          [right; split; [done | by left] | by left |
           right; split; [done | by right]].
      * intros [H | [Hne [[= ->] | H]]];
          [left; by right | left; by left | right; by split].
    + split; [intros [H | [Hne H]]; [by left | right; split; [done | by right]] |].
      intros [H | [Hne [[=] | H]]]; [by left | right; by split].
    + split; [intros [H | [Hne H]]; [by left | right; split; [done | by right]] |].
      intros [H | [Hne [[=] | H]]]; [by left | right; by split].
Qed.

(** A pass adds the non-empty executables it shows, and nothing else. *)
Lemma observe_sample_set s acc exe :
  exe ∈ (observe_sample s acc).1 ↔
  exe ∈ acc.1 ∨ (exe ≠ EmptyString ∧ ProcInfo (Some exe) ∈ procs s).
Proof. unfold observe_sample. by rewrite fold_observe_proc_set. Qed.

(** The set at the end of the loop: what was there, and what the passes
    that ran from pass [i] on have shown. *)
Lemma monitor_loop_set i now acc exe :
  now = pass_start ticks start_time i →
  (∀ j, (j < i)%nat → failure (ticks j) = None) →
  exe ∈ (monitor_loop ticks start_time duration i now acc).1.1 ↔
  exe ∈ acc.1 ∨
  (exe ≠ EmptyString ∧
   ∃ k, (i ≤ k)%nat ∧ pass_runs ticks start_time duration k ∧ shows ticks k exe).
Proof.
  funelim (monitor_loop ticks start_time duration i now acc);
    intros Hnow Hok.
  - simpl. split; [by left |]. intros [H | (_ & k & Hik & [Hk _] & _)]; [done |].
    exfalso.
    assert (Hmono : ∀ a b, (a ≤ b)%nat →
              pass_start ticks start_time a ≤ pass_start ticks start_time b).
    { intros a b Hab. induction Hab as [|b Hab IH]; [done |]. simpl.
      unfold poll_interval. lia. }
    specialize (Hmono i k Hik). lia.
  - simpl. rewrite observe_sample_set. apply or_iff_compat_l.
    apply and_iff_compat_l. split.
    + intros Hshow. exists i. split; [done |]. split; [| done].
      split; [by subst now | done].
    + intros (k & Hik & [_ Hk] & Hshow).
      destruct (decide (k = i)) as [-> | Hne]; [done |].
      assert (Hlt : (i < k)%nat) by lia.
      match goal with H : failure _ = Some _ |- _ =>
        by rewrite (Hk i Hlt) in H end.
  - match goal with IH : ∀ exe : string, _ |- _ => rewrite IH; clear IH end.
    + simpl. rewrite observe_sample_set. split.
      * intros [[H | [Hne Hshow]] | (Hne & k & Hik & Hk & Hshow)].
        -- by left.
        -- right. split; [done |]. exists i. split; [done |].
           split; [| done]. split; [by subst now | done].
        -- right. split; [done |]. exists k. split; [lia | done].
      * intros [H | (Hne & k & Hik & Hk & Hshow)]; [left; by left |].
        destruct (decide (k = i)) as [-> | Hki].
        -- left. right. by split.
        -- right. split; [done |]. exists k. split; [lia | done].
    + simpl. by subst now.
    + intros j Hj. destruct (decide (j = i)) as [-> | Hji]; [done |].
      apply Hok. lia.
Qed.

End MonitorSet.

(** X5. The set the monitor returns is the union of what its passes
    showed: a path is in it exactly when it is the non-empty executable of a
    process of a pass that was run, that is, a pass whose test found the
    duration not yet elapsed and before which no pass raised. Processes
    without a readable executable, and processes whose information raises,
    add nothing and stop nothing. *)
Theorem monitor_union (ticks : nat → sample) (start_time duration : Z)
    (exe : string) :
  exe ∈ (monitor_processes ticks start_time duration).1.1 ↔
  exe ≠ EmptyString ∧
  ∃ i, pass_runs ticks start_time duration i ∧ shows ticks i exe.
Proof.
  unfold monitor_processes.
  pose proof (monitor_loop_set ticks start_time duration 0 start_time
    (∅, [Log INFO ("Monitoring processes for " +:+ pretty duration
                    +:+ " seconds...")]) exe eq_refl) as H.
  destruct (monitor_loop _ _ _ _ _ _) as [[created finish] tr]. simpl in *.
  rewrite H by (intros j Hj; lia). split.
  - intros [Hin | (Hne & k & _ & Hk & Hshow)]; [by apply elem_of_empty in Hin |].
    eauto.
  - intros (Hne & i & Hi & Hshow). right. split; [done |].
    exists i. split; [lia | done].
Qed.

(** X6. Called with a duration that is not positive, the monitor makes no
    pass over the process table: it returns the empty set at once, having
    logged its first and its last line. *)
Theorem monitor_nonpositive (ticks : nat → sample) (start_time duration : Z) :
  duration ≤ 0 →
  monitor_processes ticks start_time duration
  = (∅, start_time,
     [Log INFO ("Monitoring processes for " +:+ pretty duration
                 +:+ " seconds...");
      Log INFO "Process monitoring completed."]).
Proof.
  intros Hle. unfold monitor_processes. simp monitor_loop.
  destruct (Z_lt_dec (start_time - start_time) (duration * second)) as [Hlt |];
    [unfold second in Hlt; lia | done].
Qed.

Lemma monitor_nonpositive_witness :
  monitor_processes slow_ticks 5 0
  = (∅, 5,
     [Log INFO ("Monitoring processes for " +:+ pretty 0 +:+ " seconds...");
      Log INFO "Process monitoring completed."]).
Proof. apply (monitor_nonpositive slow_ticks 5 0). lia. Defined.

Lemma monitor_union_witness :
  "/bin/a" ∈ (monitor_processes instant_ticks 0 1).1.1.
Proof.
  apply (monitor_union instant_ticks 0 1 "/bin/a"). split; [discriminate |].
  exists 0%nat. split.
  - split; [simpl; unfold second; lia | intros j Hj; lia].
  - apply elem_of_cons. by left.
Defined.

(** A walk that runs out of room below [/]: the scan raises before it
    enters [/bin], and the run logs the error and exits with status 1. *)
Example deep_run :
  main_on (recursive_walk 0) (demo_args false) demo_env (fresh demo_fs)
  = (1, {| fs := demo_fs;
           trace := [SysOpen "config.yaml"; SysWalk "/";
                     Log ERROR "An error occurred: maximum recursion depth exceeded while calling a Python object"] |}).
Proof. vm_compute. reflexivity. Qed.

Lemma exit_status_spec_witness :
  (run (recursive_walk 1) (Parsed (demo_args false)) demo_env
     (fresh demo_fs)).1 = 0 ∧
  (run (recursive_walk 0) (Parsed (demo_args false)) demo_env
     (fresh demo_fs)).1 ≠ 0 ∧
  (run iterative_walk BadArguments demo_env (fresh demo_fs)).1 = 2.
Proof.
  split; [| split].
  - apply (exit_status_spec (recursive_walk 1) (Parsed (demo_args false))
             demo_env (fresh demo_fs)).
    right. exists (demo_args false). split; [reflexivity |].
    split; [by eexists |]. split; [simpl; lia |].
    intros n [= <-]. unfold fits, room_for. simpl. lia.
  - intros Hstatus.
    apply (exit_status_spec (recursive_walk 0) (Parsed (demo_args false))
             demo_env (fresh demo_fs)) in Hstatus
      as [Hhelp | (args & _ & _ & _ & Hfits)]; [discriminate |].
    specialize (Hfits demo_tree eq_refl).
    unfold fits, room_for in Hfits. simpl in Hfits. lia.
  - apply (exit_status_spec iterative_walk BadArguments demo_env
             (fresh demo_fs)).
    reflexivity.
Defined.

(** ** The trace of a scan, file by file *)

Section ScanLog.

Context (fs : filesystem).

Lemma os_stat_entry top i l r ents name st :
  lookup_path fs top = Some (Dir i l r ents) →
  wf_node (Dir i l r ents) → (name, File st) ∈ ents →
  os_stat fs (Path.join top name) = stat_of st.
Proof.
  intros Htop Hwf Hin.
  destruct (lookup_path_wf_entry fs top i l r ents name _ Htop Hwf Hin)
    as [Hlook _].
  unfold os_stat. rewrite Hlook. by destruct st.
Qed.

Section Generic.

Context {B : Type} (h : string → outcome Z → list B).

Lemma walk_map_cons t triples :
  walk_map fs h (t :: triples)
  = flat_map (λ file, h (Path.join t.1.1 file)
                        (os_stat fs (Path.join t.1.1 file))) t.2
    ++ walk_map fs h triples.
Proof. reflexivity. Qed.

Lemma walk_map_app t1 t2 :
  walk_map fs h (t1 ++ t2) = walk_map fs h t1 ++ walk_map fs h t2.
Proof. unfold walk_map. apply flat_map_app. Qed.

Lemma tree_map_app f1 f2 :
  tree_map h (f1 ++ f2) = tree_map h f1 ++ tree_map h f2.
Proof. unfold tree_map. apply flat_map_app. Qed.

Lemma files_here_map top i l r ents (es : list (string * node)) :
  lookup_path fs top = Some (Dir i l r ents) →
  wf_node (Dir i l r ents) → es ⊆ ents →
  flat_map (λ file, h (Path.join top file) (os_stat fs (Path.join top file)))
           (filenames es)
  = tree_map h (files_here top es).
Proof.
  intros Htop Hwf. unfold filenames, files_here, tree_map.
  induction es as [|[name child] es IH]; intros Hsub; [done |].
  apply subseteq_cons_inv in Hsub as [Hin Hes].
  cbn [filter flat_map]. destruct child as [st | i' l' r' ents']; simpl.
  - rewrite IH by done.
    by rewrite (os_stat_entry top i l r ents name st), ?app_nil_r.
  - by apply IH.
Qed.

(** Along the walk of a well-formed tree, a function of path and [stat]
    result meets the files of [tree_files], in order. *)
Lemma walk_tree_map (n : node) : ∀ top,
  lookup_path fs top = Some n → wf_node n →
  walk_map fs h (walk top n) = tree_map h (tree_files top n).
Proof.
  induction n as [st | i l r ents IH] using node_tree_ind;
    intros top Htop Hwf; [done |].
  destruct r; [| done]. cbn [walk tree_files].
  rewrite walk_map_cons, tree_map_app. f_equal.
  - simpl. by eapply files_here_map.
  - assert (Hsub : ents ⊆ ents) by done. revert Hsub IH.
    generalize ents at 1 3 4 5 as es.
    induction es as [|[name child] es IHes]; intros Hsub IH; [done |].
    apply Forall_cons in IH as [IHchild IH]. simpl in IHchild.
    apply subseteq_cons_inv in Hsub as [Hin Hes].
    destruct (lookup_path_wf_entry fs top i l true ents name _ Htop Hwf Hin)
      as [Hlook Hwfc].
    cbn [flat_map]. rewrite walk_map_app, tree_map_app, IHes by done. f_equal.
    destruct child as [st | i' [|] [|] ents']; simpl; try done.
    by apply IHchild.
Qed.

End Generic.

Lemma scan_file_trace root acc file :
  (scan_file fs root acc file).2
  = acc.2 ++ stat_events (Path.join root file)
                         (os_stat fs (Path.join root file)).
Proof.
  unfold scan_file. destruct (os_stat fs (Path.join root file)) as [m | e];
    [by destruct (privileged m) | done].
Qed.

Lemma fold_scan_dir_trace triples acc :
  (fold_left (scan_dir fs) triples acc).2
  = acc.2 ++ walk_map fs stat_events triples.
Proof.
  revert acc. induction triples as [|[[root dirs] files] triples IH];
    intros acc; cbn [fold_left].
  - by rewrite app_nil_r.
  - rewrite IH, walk_map_cons, app_assoc. f_equal. simpl. clear IH.
    revert acc. induction files as [|file files IHf]; intros acc; simpl.
    + by rewrite app_nil_r.
    + by rewrite IHf, scan_file_trace, <- app_assoc.
Qed.

Lemma find_trace root_dir :
  (find_setuid_setgid_files fs root_dir).2
  = SysWalk root_dir :: walk_map fs stat_events (os_walk fs root_dir).
Proof. unfold find_setuid_setgid_files. by rewrite fold_scan_dir_trace. Qed.

End ScanLog.

(** X7. On an interpreter with room for the walk, the scanner calls
    [os.stat] once for each file it can reach, in the order of the
    traversal, and for nothing else; right after a call that raises it logs
    a warning with the path and the text of the error, skips the file and
    goes on. So a reachable file that cannot be examined leaves its warning
    in the log and no record in the inventory. *)
Theorem scan_log (py : interpreter) (fs : filesystem) (root_dir : string)
    (n : node) :
  wf_node (fs_root fs) →
  lookup_path fs root_dir = Some n →
  fits py n →
  ∃ inventory,
    find_setuid_setgid_files_on py fs root_dir
    = (Done inventory,
       SysWalk root_dir :: tree_map stat_events (tree_files root_dir n)) ∧
    (∀ p e, reachable_file root_dir n p (Raised e) →
            Log WARNING (stat_warning p e)
            ∈ (find_setuid_setgid_files_on py fs root_dir).2 ∧
            ∀ m, (p, m) ∉ inventory).
Proof.
  intros Hwf Hroot Hfits.
  assert (Hscan : scan_fits py fs root_dir).
  { intros n' Hn'. rewrite Hroot in Hn'. by injection Hn' as <-. }
  exists (find_setuid_setgid_files fs root_dir).1.
  rewrite find_on_fits by done.
  assert (Htr : (find_setuid_setgid_files fs root_dir).2
                = SysWalk root_dir
                  :: tree_map stat_events (tree_files root_dir n)).
  { rewrite find_trace. unfold os_walk. rewrite Hroot.
    f_equal. apply walk_tree_map; [done |]. by eapply wf_node_lookup. }
  split; [by rewrite Htr |]. intros p e Hr. cbn [snd]. split.
  - rewrite Htr. apply elem_of_cons. right.
    apply tree_files_reachable in Hr. unfold tree_map.
    apply list_elem_of_In, in_flat_map. exists (p, Raised e).
    split; [by apply list_elem_of_In |]. simpl. right. by left.
  - intros m Hin.
    destruct (inventory_is_files _ _ _ _ Hwf Hin) as (i & Hfile & _).
    pose proof (wf_node_lookup _ _ _ Hwf Hroot) as Hwfn.
    rewrite (reachable_file_lookup fs root_dir n p _ Hroot Hwfn Hr) in Hfile.
    discriminate.
Qed.

(** X8. A root that does not name a directory the scanner can list (a
    path that does not exist, a file, a directory without read permission)
    gives an empty inventory and not one line in the log, on every
    interpreter. The root is a path without [..] component and without NUL
    character. *)
Theorem scan_bad_root (py : interpreter) (fs : filesystem)
    (root_dir : string) :
  plain_root root_dir →
  (∀ i l ents, lookup_path fs root_dir ≠ Some (Dir i l true ents)) →
  find_setuid_setgid_files_on py fs root_dir = (Done [], [SysWalk root_dir]).
Proof.
  intros _ Hbad. unfold find_setuid_setgid_files_on, os_walk_on.
  destruct (lookup_path fs root_dir) as [[st | i l [|] ents] |]; try done.
  by destruct (Hbad i l ents).
Qed.

Lemma broken_tree_wf : wf_node broken_tree.
Proof.
  unfold broken_tree.
  repeat (cbn [wf_node broken_tree directory regular map fst];
          first [ exact I | split | solve_NoDup | solve_valid_name ]).
Defined.

Lemma scan_log_witness :
  find_setuid_setgid_files_on (recursive_walk 1) broken_fs "/"
  = (Done [("/bin/a", 35309)],
     [SysWalk "/"; SysStat "/bin/a"; SysStat "/bin/dangling";
      Log WARNING "Could not stat /bin/dangling: [Errno 2] No such file or directory: '/bin/dangling'"]) ∧
  Log WARNING (stat_warning "/bin/dangling"
                 "[Errno 2] No such file or directory: '/bin/dangling'")
    ∈ (find_setuid_setgid_files_on (recursive_walk 1) broken_fs "/").2.
Proof.
  assert (Hfits : fits (recursive_walk 1) broken_tree)
    by (unfold fits, room_for; simpl; lia).
  destruct (scan_log (recursive_walk 1) broken_fs "/" broken_tree
              broken_tree_wf eq_refl Hfits) as (inventory & Hscan & Hwarn).
  split.
  - rewrite Hscan. f_equal. by injection Hscan as <-.
  - apply (Hwarn "/bin/dangling").
    apply (reachable_entry "/" broken_tree "/bin"
             {| st_mode := 16877; chmod_allowed := true |} false
             [("a", regular 35309);
              ("dangling", File (Raised "[Errno 2] No such file or directory: '/bin/dangling'"))]
             "dangling").
    + eapply (entered_sub "/" broken_tree "/" _ _ _ "bin");
        [by eapply entered_top |].
      apply elem_of_cons. by left.
    + apply elem_of_cons. right. apply elem_of_cons. by left.
Defined.

Lemma scan_bad_root_witness :
  find_setuid_setgid_files_on (recursive_walk 1) demo_fs "/nowhere"
  = (Done [], [SysWalk "/nowhere"]) ∧
  find_setuid_setgid_files_on (recursive_walk 1) demo_fs "/bin/a"
  = (Done [], [SysWalk "/bin/a"]) ∧
  find_setuid_setgid_files_on iterative_walk demo_fs "/secret"
  = (Done [], [SysWalk "/secret"]).
Proof.
  split; [| split]; apply scan_bad_root;
    first [ intros i l ents; discriminate
          | split; [| reflexivity];
            apply (bool_decide_unpack _); vm_compute; reflexivity ].
Defined.

(** ** The paths of the inventory *)

Section PathsDistinct.

Lemma components_joins (top : string) (names : list string) :
  Forall Path.valid_name names →
  Path.components (joins top names) = Path.components top ++ names.
Proof.
  revert top. induction names as [|name names IH]; intros top Hvalid; simpl.
  - by rewrite app_nil_r.
  - apply Forall_cons in Hvalid as [Hname Hnames].
    rewrite IH, components_join by done. by rewrite <- app_assoc.
Qed.

(** Different names give different paths. *)
Lemma joins_inj (top : string) (ns ns' : list string) :
  Forall Path.valid_name ns → Forall Path.valid_name ns' →
  joins top ns = joins top ns' → ns = ns'.
Proof.
  intros Hns Hns' Heq. apply (f_equal Path.components) in Heq.
  rewrite !components_joins in Heq by done. by apply app_inv_head in Heq.
Qed.

Lemma files_here_names top (ents : list (string * node)) :
  files_here top ents = map (λ x, (joins top x.1, x.2)) (names_here ents).
Proof.
  unfold files_here, names_here.
  induction ents as [|[name child] ents IH]; [done |].
  cbn [flat_map]. rewrite map_app, IH. by destruct child.
Qed.

Lemma tree_files_names (n : node) : ∀ top,
  tree_files top n = map (λ x, (joins top x.1, x.2)) (tree_names n).
Proof.
  induction n as [st | i l r ents IH] using node_tree_ind; intros top;
    [done |].
  destruct r; [| done]. cbn [tree_files tree_names].
  rewrite map_app, files_here_names. f_equal.
  induction ents as [|[name child] ents IHents]; [done |].
  apply Forall_cons in IH as [IHchild IH]. simpl in IHchild.
  cbn [flat_map]. rewrite map_app, IHents by done. f_equal.
  destruct child as [st | i' [|] [|] ents']; try done.
  rewrite IHchild, map_map. done.
Qed.

Lemma elem_of_names_here (ents : list (string * node)) x :
  x ∈ names_here ents ↔ ∃ name st, (name, File st) ∈ ents ∧ x = ([name], st).
Proof.
  unfold names_here. rewrite list_elem_of_In, in_flat_map. split.
  - intros ([name child] & Hin & Hx). apply list_elem_of_In in Hin.
    destruct child as [st | ]; simpl in Hx; [| done].
    destruct Hx as [<- | []]. eauto.
  - intros (name & st & Hin & ->). exists (name, File st).
    split; [by apply list_elem_of_In | by left].
Qed.

Lemma elem_of_tree_names_dir i l ents x :
  x ∈ tree_names (Dir i l true ents) ↔
  x ∈ names_here ents ∨
  ∃ name i' ents' y, (name, Dir i' false true ents') ∈ ents ∧
    y ∈ tree_names (Dir i' false true ents') ∧ x = (name :: y.1, y.2).
Proof.
  cbn [tree_names]. rewrite elem_of_app. apply or_iff_compat_l.
  rewrite list_elem_of_In, in_flat_map. split.
  - intros ([name child] & Hin & Hx). apply list_elem_of_In in Hin.
    destruct child as [st | i' [|] [|] ents']; try done.
    apply in_map_iff in Hx as (y & <- & Hy). apply list_elem_of_In in Hy.
    exists name, i', ents', y. done.
  - intros (name & i' & ents' & y & Hin & Hy & ->).
    exists (name, Dir i' false true ents').
    split; [by apply list_elem_of_In |].
    apply in_map_iff. exists y. split; [done | by apply list_elem_of_In].
Qed.

(** The names that lead to a file are valid, and there is at least one. *)
Lemma tree_names_valid (n : node) : ∀ x,
  wf_node n → x ∈ tree_names n → Forall Path.valid_name x.1 ∧ x.1 ≠ [].
Proof.
  induction n as [st | i l r ents IH] using node_tree_ind; intros x Hwf Hx.
  - by apply elem_of_nil in Hx.
  - destruct r; [| by apply elem_of_nil in Hx].
    apply wf_node_dir in Hwf as [_ Hall]. rewrite Forall_forall in Hall, IH.
    apply elem_of_tree_names_dir in Hx
      as [(name & st & Hin & ->)%elem_of_names_here
         | (name & i' & ents' & y & Hin & Hy & ->)].
    + destruct (Hall _ Hin) as [Hname _]. simpl. split; [| done].
      constructor; [done | constructor].
    + destruct (Hall _ Hin) as [Hname Hchild]. simpl in *.
      destruct (IH _ Hin y Hchild Hy) as [Hvalid _].
      split; [by constructor | done].
Qed.

(** No two files of a well-formed tree are reached through the same
    names. *)
Lemma tree_names_NoDup (n : node) :
  wf_node n → NoDup (map fst (tree_names n)).
Proof.
  induction n as [st | i l r ents IH] using node_tree_ind; intros Hwf;
    [constructor |].
  destruct r; [| constructor].
  apply wf_node_dir in Hwf as [Hnd Hall].
  cbn [tree_names]. rewrite map_app. apply NoDup_app. split; [| split].
  - clear IH Hall. unfold names_here.
    induction ents as [|[name child] ents IHents]; [constructor |].
    simpl in Hnd. apply NoDup_cons in Hnd as [Hname Hnd].
    cbn [flat_map]. destruct child as [st | ]; simpl; [| by apply IHents].
    apply NoDup_cons. split; [| by apply IHents].
    intros ([ns st'] & Heq & Hin)%list_elem_of_fmap. simpl in Heq. subst ns.
    apply elem_of_names_here in Hin as (name' & st'' & Hin & [= <- <-]).
    apply Hname, list_elem_of_fmap. by exists (name, File st').
  - intros ns ([ns' st] & Heq & Hin)%list_elem_of_fmap. simpl in Heq. subst ns'.
    apply elem_of_names_here in Hin as (name & st' & _ & [= -> ->]).
    intros ([ns' st''] & Heq & Hin)%list_elem_of_fmap. simpl in Heq. subst ns'.
    apply list_elem_of_In, in_flat_map in Hin as ([name' child] & _ & Hin).
    destruct child as [st | i' [|] [|] ents']; try done.
    apply in_map_iff in Hin as (y & [= <- Hy _] & Hin).
    destruct y as [[|c ns] sty]; [| done].
    apply list_elem_of_In, elem_of_tree_names_dir in Hin
      as [(? & ? & _ & [=])%elem_of_names_here
         | (? & ? & ? & ? & _ & _ & [=])].
  - induction ents as [|[name child] ents IHents]; [constructor |].
    simpl in Hnd. apply NoDup_cons in Hnd as [Hname Hnd].
    apply Forall_cons in Hall as [[_ Hchild] Hall].
    apply Forall_cons in IH as [IHchild IH]. simpl in IHchild, Hchild.
    cbn [flat_map]. rewrite map_app. apply NoDup_app.
    split; [| split; [| by apply IHents]].
    + destruct child as [st | i' [|] [|] ents']; try constructor.
      rewrite map_map. simpl.
      rewrite <- (map_map fst (cons name)).
      apply (NoDup_fmap_2 (cons name)). by apply IHchild.
    + intros ns Hns ([ns' st] & Heq & Hin)%list_elem_of_fmap.
      simpl in Heq. subst ns'.
      destruct child as [st0 | i' [|] [|] ents'];
        try (by apply elem_of_nil in Hns).
      apply list_elem_of_fmap in Hns as ([ns0 st0] & -> & Hns). simpl.
      apply list_elem_of_In, in_map_iff in Hns as (y & [= <- _] & _).
      apply list_elem_of_In, in_flat_map in Hin as ([name' child'] & Hin' & Hin).
      destruct child' as [st1 | i1 [|] [|] ents1]; try done.
      apply in_map_iff in Hin as (y' & [= <- _ _] & _).
      apply Hname, list_elem_of_fmap.
      exists (name', Dir i1 false true ents1).
      split; [done | by apply list_elem_of_In].
Qed.

(** The paths of [tree_files] are pairwise distinct. *)
Lemma tree_files_NoDup (top : string) (n : node) :
  wf_node n → NoDup (map fst (tree_files top n)).
Proof.
  intros Hwf. rewrite tree_files_names, map_map. simpl.
  rewrite <- (map_map fst (joins top)).
  apply NoDup_fmap_2_strong; [| by apply tree_names_NoDup].
  intros ns ns' ([? st] & -> & Hin)%list_elem_of_fmap
    ([? st'] & -> & Hin')%list_elem_of_fmap Heq.
  destruct (tree_names_valid n _ Hwf Hin) as [Hv _].
  destruct (tree_names_valid n _ Hwf Hin') as [Hv' _].
  by eapply joins_inj.
Qed.

Lemma omap_expected_NoDup (files : list (string * outcome inode)) :
  NoDup (map fst files) → NoDup (map fst (omap expected_record files)).
Proof.
  induction files as [|[p st] files IH]; [done |].
  simpl. intros [Hp Hnd]%NoDup_cons. specialize (IH Hnd).
  unfold expected_record at 1. simpl.
  destruct st as [i | e]; [| done].
  destruct (privileged (st_mode i)); [| done].
  simpl. apply NoDup_cons. split; [| done].
  intros ([q m] & Heq & Hin)%list_elem_of_fmap. simpl in Heq. subst q.
  apply list_elem_of_omap in Hin as ([q st] & Hin & Hrec).
  unfold expected_record in Hrec. simpl in Hrec.
  destruct st as [j | e]; [| done].
  destruct (privileged (st_mode j)); [| done]. injection Hrec as -> _.
  apply Hp, list_elem_of_fmap. by exists (p, Done j).
Qed.

End PathsDistinct.

(** X9. The paths of the inventory are pairwise distinct: on a
    well-formed tree the scanner records no file twice, so the loop of
    [main] handles each inventoried path once. *)
Theorem inventory_paths_distinct (fs : filesystem) (root_dir : string) :
  wf_node (fs_root fs) →
  NoDup (map fst (find_setuid_setgid_files fs root_dir).1).
Proof.
  intros Hwf. rewrite find_inventory by done. unfold expected_inventory.
  destruct (lookup_path fs root_dir) as [n |] eqn:Hroot; [| constructor].
  apply omap_expected_NoDup, tree_files_NoDup. by eapply wf_node_lookup.
Qed.

Lemma inventory_paths_distinct_witness :
  NoDup (map fst (find_setuid_setgid_files demo_fs "/").1).
Proof. apply (inventory_paths_distinct demo_fs "/"). exact demo_tree_wf. Defined.

(** ** The effect of a run on the files *)

Section OnlyClears.

Lemma os_stat_node (fs : filesystem) (p : string) :
  os_stat fs p = match lookup_path fs p with
                 | Some n => node_stat n
                 | None => Raised (enoent p)
                 end.
Proof.
  unfold os_stat. by destruct (lookup_path fs p) as [[[i | e] | i l r ents] |].
Qed.

Lemma cleared_from_refl (a : outcome Z) : cleared_from a a.
Proof. by left. Qed.

Lemma cleared_from_trans (a b c : outcome Z) :
  cleared_from a b → cleared_from b c → cleared_from a c.
Proof.
  intros [-> | (m & -> & ->)] [-> | (m' & Hm' & ->)]; try (by left).
  - right. eauto.
  - right. eauto.
  - injection Hm' as <-. right. exists m. by rewrite clear_s_idem.
Qed.

Lemma only_cleared_refl (fs : filesystem) : only_cleared fs fs.
Proof. intros q. split; [by left | done]. Qed.

Lemma only_cleared_trans (a b c : filesystem) :
  only_cleared a b → only_cleared b c → only_cleared a c.
Proof.
  intros Hab Hbc q. destruct (Hab q) as [H1 H2], (Hbc q) as [H3 H4].
  split; [by eapply cleared_from_trans | by rewrite H2].
Qed.

(** [chmod a-s] on one path clears bits and does nothing else, whatever
    path one looks at afterwards. *)
Lemma chmod_only_cleared (fs fs' : filesystem) (p : string) :
  chmod_a_s fs p = Some fs' → only_cleared fs fs'.
Proof.
  intros Hch q.
  destruct (lookup_path_chmod _ _ _ Hch) as (n & i & _ & _ & _ & -> & _).
  set (fs' := {| fs_root := alter_at clear_node (fs_root fs) (absolute fs p);
                 fs_cwd := fs_cwd fs |}).
  assert (Hq : match lookup_path fs q with
               | None => lookup_path fs' q = None
               | Some m =>
                   ∃ m', lookup_path fs' q = Some m' ∧
                         cleared_from (node_stat m) (node_stat m') ∧
                         node_allowed m' = node_allowed m
               end).
  { destruct (decide (q = EmptyString)) as [-> | Hne]; [done |].
    rewrite !lookup_path_resolve by done.
    change (absolute fs' q) with (absolute fs q).
    change (fs_root fs')
      with (alter_at clear_node (fs_root fs) (absolute fs p)).
    pose proof (resolve_alter_any (absolute fs q) (fs_root fs)
                  (absolute fs p)) as H.
    destruct (resolve (fs_root fs) (absolute fs q)) as [m |]; [| done].
    destruct H as [L'' [H | H]]; rewrite H.
    - exists (alter_at clear_node m L'').
      destruct (node_stat_alter_at m L'') as (Hstat & Hallowed & _). done.
    - exists m. split; [done |]. split; [by left | done]. }
  rewrite !os_stat_node. unfold chmoddable.
  destruct (lookup_path fs q) as [m |].
  - destruct Hq as (m' & -> & Hstat & Hallowed).
    split; [done |]. split.
    + intros (? & [= <-] & H). eexists. split; [done |]. by rewrite Hallowed.
    + intros (? & [= <-] & H). eexists. split; [done |].
      by rewrite <- Hallowed.
  - rewrite Hq. split; [by left |]. split; by intros (? & ? & _).
Qed.

Context (env : environment).

Lemma remove_privileges_only_cleared p dry w :
  only_cleared (fs w) (fs (remove_privileges (spawn_error env) p dry w)).
Proof.
  unfold remove_privileges. destruct dry; simpl; [apply only_cleared_refl |].
  destruct (spawn_error env p); [apply only_cleared_refl |].
  destruct (chmod_a_s (fs w) p) as [fs' |] eqn:Hch;
    [by eapply chmod_only_cleared | apply only_cleared_refl].
Qed.

Lemma process_file_only_cleared dry monitored w r :
  only_cleared (fs w) (fs (process_file env dry monitored w r)).
Proof.
  destruct r as [p m]. unfold process_file.
  destruct (negb (check_privilege_usage p monitored));
    [apply remove_privileges_only_cleared | apply only_cleared_refl].
Qed.

Lemma fold_process_file_only_cleared dry monitored files w :
  only_cleared (fs w)
    (fs (fold_left (process_file env dry monitored) files w)).
Proof.
  revert w. induction files as [|r files IH]; intros w; cbn [fold_left];
    [apply only_cleared_refl |].
  eapply only_cleared_trans; [apply process_file_only_cleared | apply IH].
Qed.

(** The outcome of the loop for one record that is not kept, when the run
    is no dry run and [chmod] can be started for it. *)
Lemma fold_process_file_outcome monitored files w p m z :
  (p, m) ∈ files → p ∉ monitored → spawn_error env p = None →
  os_stat (fs w) p = Done z →
  let w' := fold_left (process_file env false monitored) files w in
  (chmoddable (fs w) p →
   os_stat (fs w') p = Done (clear_s z) ∧
   Log INFO (removed_message p) ∈ trace w') ∧
  (¬ chmoddable (fs w) p →
   Log ERROR (failed_message p) ∈ trace w').
Proof.
  intros Hin Hout Hsp. revert w z Hin.
  induction files as [|[q mq] files IH]; intros w z Hin Hstat;
    [by apply elem_of_nil in Hin |].
  cbn [fold_left].
  pose proof (process_file_only_cleared false monitored w (q, mq) p)
    as [Hcl Hable].
  pose proof (fold_process_file_only_cleared false monitored files
                (process_file env false monitored w (q, mq)) p) as [Hcl' _].
  destruct (fold_process_file_all env false monitored files
              (process_file env false monitored w (q, mq))) as [Hmono _].
  apply elem_of_cons in Hin as [[= <- <-] | Hin].
  - rewrite process_file_revoke in * by done.
    unfold remove_privileges in Hcl', Hmono |- *. simpl in *.
    rewrite Hsp in *. split.
    + intros (n & Hn & Hallowed).
      assert (Hch : ∃ fs', chmod_a_s (fs w) p = Some fs').
      { unfold chmod_a_s. rewrite Hn. unfold node_allowed in Hallowed.
        destruct (node_inode n) as [i |]; [| done]. rewrite Hallowed. eauto. }
      destruct Hch as [fs' Hch]. rewrite Hch in *. simpl in *.
      split.
      * rewrite (os_stat_chmod _ _ _ _ Hch Hstat) in Hcl'.
        destruct Hcl' as [-> | (m' & [= <-] & ->)];
          [done | by rewrite clear_s_idem].
      * apply Hmono, elem_of_app. right.
        apply elem_of_cons. right. by apply list_elem_of_singleton.
    + intros Hno.
      assert (Hch : chmod_a_s (fs w) p = None).
      { unfold chmod_a_s.
        destruct (lookup_path (fs w) p) as [n |] eqn:Hn; [| done].
        destruct (node_inode n) as [i |] eqn:Hi; [| done].
        destruct (chmod_allowed i) eqn:Hallowed; [| done].
        destruct Hno. exists n. split; [done |]. unfold node_allowed.
        by rewrite Hi. }
      rewrite Hch in *. simpl in *.
      apply Hmono, elem_of_app. right.
      apply elem_of_cons. right. by apply list_elem_of_singleton.
  - destruct Hcl as [Hsame | (z' & Hz & Hz')].
    + rewrite Hstat in Hsame.
      destruct (IH _ z Hin Hsame) as [Hyes Hno]. split.
      * intros Hc. apply Hyes. by apply Hable.
      * intros Hc. apply Hno. by rewrite <- Hable.
    + rewrite Hstat in Hz. injection Hz as <-.
      destruct (IH _ _ Hin Hz') as [Hyes Hno]. split.
      * intros Hc. rewrite <- (clear_s_idem z). apply Hyes. by apply Hable.
      * intros Hc. apply Hno. by rewrite <- Hable.
Qed.

End OnlyClears.

Lemma clear_s_testbit (m k : Z) :
  k ≠ 10 → k ≠ 11 → Z.testbit (clear_s m) k = Z.testbit m k.
Proof.
  intros H10 H11. unfold clear_s. rewrite Z.land_spec.
  destruct (Z.ltb_spec k 0) as [Hneg | Hpos].
  { by rewrite !Z.testbit_neg_r by done. }
  rewrite Z.lnot_spec by done.
  assert (Hbit : Z.testbit (Z.lor S_ISUID S_ISGID) k = false).
  { change (Z.lor S_ISUID S_ISGID) with 3072.
    destruct (Z.ltb_spec k 12) as [Hsmall | Hbig].
    - assert (Hk : k = 0 ∨ k = 1 ∨ k = 2 ∨ k = 3 ∨ k = 4 ∨ k = 5 ∨ k = 6 ∨
                   k = 7 ∨ k = 8 ∨ k = 9) by lia.
      destruct Hk as [-> | [-> | [-> | [-> | [-> | [-> | [-> | [-> | [-> | ->]]]]]]]]];
        reflexivity.
    - apply Z.bits_above_log2; [lia |].
      change (Z.log2 3072) with 11. lia. }
  rewrite Hbit. simpl. apply andb_true_r.
Qed.

Lemma pipeline_fs (args : Args) (env : environment) (w : world) :
  fs (before_revocation args env w) = drift env (fs w).
Proof. reflexivity. Qed.

(** X10. A run can only clear the setuid and setgid bits. Whatever path
    one stats after a run that got past validation, the result is the one
    the same [stat] gave when the loop over the inventory began, or that
    mode without the two bits; the same entries exist and the same entries
    may be changed. Clearing leaves every other bit of a mode as it was. A
    run that stops at validation leaves the filesystem as it found it. *)
Theorem run_only_clears (args : Args) (env : environment) (w : world) :
  let r := main args env w in
  (r.1 = 0 → only_cleared (drift env (fs w)) (fs r.2)) ∧
  (r.1 ≠ 0 → fs r.2 = fs w) ∧
  (∀ m, privileged (clear_s m) = false ∧
        ∀ k, k ≠ 10 → k ≠ 11 → Z.testbit (clear_s m) k = Z.testbit m k).
Proof.
  intros r. unfold r.
  split; [| split].
  - intros H0. destruct (main_ran _ _ _ H0) as (_ & _ & ->). simpl.
    rewrite pipeline_unfold.
    change (drift env (fs w))
      with (fs (before_revocation args env
                  (emit [SysOpen (config args)] w))).
    apply fold_process_file_only_cleared.
  - destruct (main_cases args env w)
      as [(e & _ & ->) | [(cfg & _ & _ & ->) | (cfg & _ & _ & ->)]];
      simpl; done.
  - intros m. split; [apply privileged_clear_s |]. apply clear_s_testbit.
Qed.

Lemma run_only_clears_witness :
  let r := main (demo_args false) demo_env (fresh demo_fs) in
  cleared_from (os_stat demo_fs "/bin/b") (os_stat (fs r.2) "/bin/b") ∧
  cleared_from (os_stat demo_fs "/shared") (os_stat (fs r.2) "/shared") ∧
  fs (main default_args (with_config (λ _, NoSuchFile) demo_env)
        (fresh demo_fs)).2 = demo_fs.
Proof.
  split; [| split].
  - apply (run_only_clears (demo_args false) demo_env (fresh demo_fs)).
    exact demo_run_status.
  - apply (run_only_clears (demo_args false) demo_env (fresh demo_fs)).
    exact demo_run_status.
  - apply (run_only_clears default_args
             (with_config (λ _, NoSuchFile) demo_env) (fresh demo_fs)).
    discriminate.
Defined.

(** X11. Revocation is effective. In a run that is no dry run, for every
    inventoried path that was not seen running: if [chmod] can be started
    and the entry the path names when the loop begins may be changed, then
    at the end of the run the mode of that entry is its mode then without
    the setuid and setgid bits, and the log holds the line of the
    removal. *)
Theorem revocation_effective (args : Args) (env : environment)
    (fs0 : filesystem) (p : string) (m z : Z) :
  (main args env (fresh fs0)).1 = 0 →
  dry_run args = false →
  (p, m) ∈ scanned fs0 →
  p ∉ observed args env →
  spawn_error env p = None →
  chmoddable (drift env fs0) p →
  os_stat (drift env fs0) p = Done z →
  let r := main args env (fresh fs0) in
  os_stat (fs r.2) p = Done (clear_s z) ∧
  privileged (clear_s z) = false ∧
  Log INFO (removed_message p) ∈ trace r.2.
Proof.
  intros H0 Hdry Hin Hout Hsp Hable Hstat r. unfold r.
  destruct (main_ran _ _ _ H0) as (_ & _ & ->). simpl.
  rewrite pipeline_unfold, Hdry.
  destruct (fold_process_file_outcome env (observed args env)
              (scanned (fs (emit [SysOpen (config args)] (fresh fs0))))
              (before_revocation args env
                 (emit [SysOpen (config args)] (fresh fs0)))
              p m z Hin Hout Hsp Hstat) as [Hyes _].
  destruct (Hyes Hable) as [Hfinal Hlog].
  split; [done |]. split; [apply privileged_clear_s | done].
Qed.

Example demo_not_observed : "/bin/b" ∉ observed (demo_args false) demo_env.
Proof.
  apply (decision_spec "/bin/b" (observed (demo_args false) demo_env)).
  vm_compute. reflexivity.
Qed.

Lemma revocation_effective_witness :
  let r := main (demo_args false) demo_env (fresh demo_fs) in
  os_stat (fs r.2) "/bin/b" = Done (clear_s 35309) ∧
  privileged (clear_s 35309) = false ∧
  Log INFO (removed_message "/bin/b") ∈ trace r.2.
Proof.
  apply (revocation_effective (demo_args false) demo_env demo_fs
           "/bin/b" 35309 35309).
  - exact demo_run_status.
  - reflexivity.
  - rewrite demo_scanned. apply elem_of_cons. right. apply elem_of_cons. by left.
  - exact demo_not_observed.
  - reflexivity.
  - eexists. split; reflexivity.
  - reflexivity.
Defined.

(** X12. A file that cannot be changed any more when its turn comes (it
    was deleted while the monitor ran, or it belongs to someone else) does
    not stop the run: when [chmod] can be started, its failure is logged as
    an error that begins with the path, and the run still ends with status
    0. For a path of ASCII characters the line is the one given here in
    full, with the path printed by [repr] in the command. *)
Theorem unrevokable_file_logged (args : Args) (env : environment)
    (fs0 : filesystem) (p : string) (m : Z) :
  (main args env (fresh fs0)).1 = 0 →
  dry_run args = false →
  (p, m) ∈ scanned fs0 →
  p ∉ observed args env →
  spawn_error env p = None →
  ¬ chmoddable (drift env fs0) p →
  let r := main args env (fresh fs0) in
  r.1 = 0 ∧
  (∃ reason,
     Log ERROR ("Failed to remove privileges from " +:+ p +:+ ": " +:+ reason)
     ∈ trace r.2) ∧
  (isascii p = true →
   Log ERROR ("Failed to remove privileges from " +:+ p
              +:+ ": Command '['chmod', 'a-s', " +:+ py_repr p
              +:+ "]' returned non-zero exit status 1.")
   ∈ trace r.2).
Proof.
  intros H0 Hdry Hin Hout Hsp Hno r. unfold r. split; [done |].
  assert (Hline : Log ERROR (failed_message p)
                  ∈ trace (main args env (fresh fs0)).2); cycle 1.
  { split; [by exists (called_process_error p) | done]. }
  destruct (main_ran _ _ _ H0) as (_ & _ & ->). simpl.
  rewrite pipeline_unfold, Hdry.
  set (w0 := before_revocation args env
               (emit [SysOpen (config args)] (fresh fs0))).
  set (files := scanned (fs (emit [SysOpen (config args)] (fresh fs0)))).
  assert (Hgen : ∀ w, ¬ chmoddable (fs w) p →
            Log ERROR (failed_message p)
            ∈ trace (fold_left (process_file env false (observed args env))
                       files w)).
  { assert (Hfiles : (p, m) ∈ files) by done.
    revert Hfiles. generalize files. clear files w0.
    induction files as [|[q mq] files IH]; intros Hfiles w Hw;
      [by apply elem_of_nil in Hfiles |].
    cbn [fold_left].
    destruct (fold_process_file_all env false (observed args env) files
                (process_file env false (observed args env) w (q, mq)))
      as [Hmono _].
    apply elem_of_cons in Hfiles as [[= <- <-] | Hfiles].
    - apply Hmono. rewrite process_file_revoke by done.
      unfold remove_privileges. simpl. rewrite Hsp.
      assert (Hch : chmod_a_s (fs w) p = None).
      { unfold chmod_a_s.
        destruct (lookup_path (fs w) p) as [n |] eqn:Hn; [| done].
        destruct (node_inode n) as [i |] eqn:Hi; [| done].
        destruct (chmod_allowed i) eqn:Hallowed; [| done].
        destruct Hw. exists n. split; [done |]. unfold node_allowed.
        by rewrite Hi. }
      rewrite Hch. simpl. apply elem_of_app. right.
      apply elem_of_cons. right. by apply list_elem_of_singleton.
    - apply IH; [done |].
      pose proof (process_file_only_cleared env false (observed args env)
                    w (q, mq) p) as [_ Hable].
      by rewrite <- Hable. }
  by apply Hgen.
Qed.

(** The text of the failure for a path with a single quote: Python prints
    the argument between double quotes. *)
Example called_process_error_quote :
  called_process_error "/bin/it's"
  = "Command '['chmod', 'a-s', " +:+ String double_quote "/bin/it's"
    +:+ String double_quote "]' returned non-zero exit status 1." ∧
  py_repr "/bin/b" = "'/bin/b'" ∧
  py_repr (String backslash "n") = "'\\n'".
Proof. vm_compute. repeat split; reflexivity. Qed.

Example vanish_run_status :
  (main (demo_args false) vanish_env (fresh demo_fs)).1 = 0.
Proof. vm_compute. reflexivity. Qed.

Lemma unrevokable_file_logged_witness :
  let r := main (demo_args false) vanish_env (fresh demo_fs) in
  r.1 = 0 ∧
  Log ERROR "Failed to remove privileges from /bin/b: Command '['chmod', 'a-s', '/bin/b']' returned non-zero exit status 1."
  ∈ trace r.2.
Proof.
  destruct (unrevokable_file_logged (demo_args false) vanish_env demo_fs
              "/bin/b" 35309) as (Hstatus & _ & Hline).
  - exact vanish_run_status.
  - reflexivity.
  - rewrite demo_scanned. apply elem_of_cons. right. apply elem_of_cons. by left.
  - exact demo_not_observed.
  - reflexivity.
  - intros (n & Hn & _). discriminate.
  - split; [exact Hstatus |]. apply Hline. reflexivity.
Defined.

(** ** A pass of the monitor that raises *)

Section MonitorFailure.

Context (ticks : nat → sample) (start_time duration : Z).

Lemma pass_start_le (a b : nat) :
  (a ≤ b)%nat → pass_start ticks start_time a ≤ pass_start ticks start_time b.
Proof.
  intros Hab. induction Hab as [|b Hab IH]; [done |]. simpl.
  unfold poll_interval. lia.
Qed.

(** The loop gets to the test of every pass that is run. *)
Lemma monitor_loop_reaches (i : nat) acc0 :
  pass_runs ticks start_time duration i →
  ∃ acc, monitor_loop ticks start_time duration 0 start_time acc0
         = monitor_loop ticks start_time duration i
             (pass_start ticks start_time i) acc ∧
         count_passes acc.2 = (count_passes acc0.2 + i)%nat.
Proof.
  induction i as [|i IH]; intros [Hstart Hok].
  - exists acc0. split; [done | lia].
  - destruct IH as (acc & -> & Hcount).
    { split; [| intros j Hj; apply Hok; lia].
      pose proof (pass_start_le i (S i)). lia. }
    assert (Hi : pass_start ticks start_time i - start_time
                 < duration * second).
    { pose proof (pass_start_le i (S i)). lia. }
    eexists. split.
    + rewrite monitor_loop_equation_1.
      destruct (Z_lt_dec (pass_start ticks start_time i - start_time)
                  (duration * second)) as [Hlt | Hge]; [| lia].
      simpl. rewrite (Hok i) by lia. simpl. reflexivity.
    + simpl. rewrite count_passes_app, observe_sample_passes.
      change (count_passes [SysSleep]) with 0%nat. lia.
Qed.

End MonitorFailure.

(** X13. When a pass over the process table raises, the monitor stops
    there: it returns at once, before the duration has elapsed, with what
    it has seen so far, logs the error and then its last line, and makes no
    further pass. *)
Theorem monitor_stops_at_failure (ticks : nat → sample)
    (start_time duration : Z) (i : nat) (e : string) :
  pass_runs ticks start_time duration i →
  failure (ticks i) = Some e →
  let r := monitor_processes ticks start_time duration in
  r.1.2 = pass_start ticks start_time i + Z.of_N (sample_time (ticks i)) ∧
  count_passes r.2 = S i ∧
  ∃ tr, r.2 = tr ++ [Log ERROR ("Error during process monitoring: " +:+ e);
                     Log INFO "Process monitoring completed."].
Proof.
  intros Hruns Hfail r. unfold r, monitor_processes.
  destruct (monitor_loop_reaches ticks start_time duration i
              (∅, [Log INFO ("Monitoring processes for " +:+ pretty duration
                              +:+ " seconds...")]) Hruns)
    as (acc & -> & Hcount).
  rewrite (monitor_loop_failure ticks start_time duration i _ acc e)
    by (done || apply Hruns).
  simpl. split; [done |]. split.
  - rewrite !count_passes_app, observe_sample_passes, Hcount.
    change (count_passes [Log ERROR _]) with 0%nat.
    change (count_passes [Log INFO _]) with 0%nat. simpl. lia.
  - eexists. by rewrite <- app_assoc.
Qed.

Lemma monitor_stops_at_failure_witness :
  let ticks := λ _, {| procs := []; failure := Some "boom";
                       sample_time := 3000000; oversleep := 0 |} in
  let r := monitor_processes ticks 0 60 in
  r.1.2 = pass_start ticks 0 0 + 3000000 ∧
  count_passes r.2 = 1%nat ∧
  ∃ tr, r.2 = tr ++ [Log ERROR ("Error during process monitoring: " +:+ "boom");
                     Log INFO "Process monitoring completed."].
Proof.
  apply (monitor_stops_at_failure
           (λ _, {| procs := []; failure := Some "boom";
                    sample_time := 3000000; oversleep := 0 |}) 0 60 0 "boom").
  - split; [simpl; unfold second; lia | intros j Hj; lia].
  - reflexivity.
Defined.
